(** * Programmable-Workout: sequence tree, flattener, editor and playback

    A shallow embedding of the logic of [app/(tabs)/index.tsx] (the
    [HomeScreen] component) and of the library screen (the
    [TabTwoScreen] component):

    - the [SequenceStep] / [SequenceLoop] data model,
    - [flattenSequence], [parentExists], [addStepToParent], [removeItem],
    - the handlers [addStep], [addLoop], [startSequence], [handleComplete],
      [resetTimer] as transformers of the component's state,
    - [loadSequence] over parsed JSON values,
    - [calculateTotalTime] and the two [formatTime] functions,
    - the library: [loadSavedSequences] with its migration,
      [handleLoadSequence], [handleDeleteSequence], and saving from the
      home screen ([saveCurrentSequence], [saveSequenceToLibrary]).

    Numbers are modelled as integers ([Z], or [nat] for the counters that
    the component only ever sets to 0 or increments); strings are
    [String.string]. *)

From Stdlib Require Import String Ascii ZArith List Bool Arith Lia.
From Stdlib Require Import DecimalString.
From Stdlib Require Import Permutation.
From Stdlib Require DecimalNat DecimalFacts.
Import ListNotations.
Local Open Scope string_scope.
Local Open Scope list_scope.

(* ===================================================================== *)
(** ** Data model *)
(* ===================================================================== *)

(** [interface SequenceStep { type: "step"; time; label?; id }] *)
Record SequenceStep : Type := mkStep {
  time : Z;
  label : option string;
  id : string
}.

(** [type LoopItem = SequenceStep | SequenceLoop]; the [type] tag is the
    constructor.  [interface SequenceLoop { type: "loop"; id; repetitions;
    children: LoopItem[]; label? }] *)
#[warnings="-register-all"]
Inductive LoopItem : Type :=
| IStep (s : SequenceStep)
| ILoop (loopId : string) (repetitions : Z) (children : list LoopItem)
        (loopLabel : option string).

(** [item.id], defined for both variants. *)
Definition item_id (item : LoopItem) : string :=
  match item with
  | IStep s => id s
  | ILoop l _ _ _ => l
  end.

(** Induction over a tree (a list of units): the empty list, a step
    followed by the rest, a loop (with its children) followed by the rest. *)
Section TreeInduction.
Variable P : list LoopItem -> Prop.
Hypothesis P_nil : P [].
Hypothesis P_step : forall s rest, P rest -> P (IStep s :: rest).
Hypothesis P_loop : forall l r cs lb rest,
    P cs -> P rest -> P (ILoop l r cs lb :: rest).

Fixpoint item_cons_ind (item : LoopItem) : forall rest, P rest -> P (item :: rest) :=
  match item with
  | IStep s => fun rest H => P_step s rest H
  | ILoop l r cs lb => fun rest H =>
      P_loop l r cs lb rest
        ((fix go (xs : list LoopItem) : P xs :=
            match xs with
            | [] => P_nil
            | x :: xs' => item_cons_ind x xs' (go xs')
            end) cs) H
  end.

Fixpoint tree_ind (t : list LoopItem) : P t :=
  match t with
  | [] => P_nil
  | item :: rest => item_cons_ind item rest (tree_ind rest)
  end.
End TreeInduction.

(** All ids of a unit and of a tree, in pre-order (a unit before its
    children). *)
Fixpoint item_ids (item : LoopItem) : list string :=
  match item with
  | IStep s => [id s]
  | ILoop l _ cs _ => l :: flat_map item_ids cs
  end.

Definition ids (t : list LoopItem) : list string := flat_map item_ids t.

(** Ids of the loops only. *)
Fixpoint item_loop_ids (item : LoopItem) : list string :=
  match item with
  | IStep _ => []
  | ILoop l _ cs _ => l :: flat_map item_loop_ids cs
  end.

Definition loop_ids (t : list LoopItem) : list string :=
  flat_map item_loop_ids t.

(** Ids of the units that lie strictly below a unit whose id is [a]. *)
Fixpoint item_ids_under (a : string) (item : LoopItem) : list string :=
  match item with
  | IStep _ => []
  | ILoop l _ cs _ =>
      if String.eqb l a then flat_map item_ids cs
      else flat_map (item_ids_under a) cs
  end.

Definition ids_under (a : string) (t : list LoopItem) : list string :=
  flat_map (item_ids_under a) t.

(* ===================================================================== *)
(** ** Flattener *)
(* ===================================================================== *)

Section ForLoop.
Context {A : Type}.
Variable body : A -> A.

(** [for (let i = 0; i < n; i++) body], as a transformer of the
    variables the body mutates. *)
Fixpoint for_loop (n : nat) (acc : A) : A :=
  match n with
  | O => acc
  | S k => for_loop k (body acc)
  end.
End ForLoop.

(** The number of iterations of [for (let i = 0; i < repetitions; i++)]
    for an integer [repetitions]: none when [repetitions <= 0]. *)
Definition iterations (repetitions : Z) : nat := Z.to_nat repetitions.

(** The callback of [items.forEach] in [processItems], with the shared
    [result] array threaded through: [result.push(item)] appends at the
    end; a loop runs [processItems(item.children, item.repetitions)]. *)
Fixpoint processItem (item : LoopItem) (result : list SequenceStep)
  : list SequenceStep :=
  match item with
  | IStep s => result ++ [s]
  | ILoop _ repetitions children _ =>
      for_loop (fun r => fold_left (fun acc c => processItem c acc) children r)
               (iterations repetitions) result
  end.

(** One pass of [items.forEach(...)]. *)
Definition forEach_items (items : list LoopItem) (result : list SequenceStep)
  : list SequenceStep :=
  fold_left (fun acc c => processItem c acc) items result.

(** [processItems(items, repetitions)]. *)
Definition processItems (items : list LoopItem) (repetitions : Z)
           (result : list SequenceStep) : list SequenceStep :=
  for_loop (forEach_items items) (iterations repetitions) result.

(** [flattenSequence(items)]: [result = []; processItems(items); return result]
    with the default [repetitions = 1]. *)
Definition flattenSequence (items : list LoopItem) : list SequenceStep :=
  processItems items 1 [].

(** The flattening as the specification words it: a step emits one entry,
    a loop emits the flattening of its children [R] consecutive times
    (no time for [R <= 0]). *)
Fixpoint flatten_unit (item : LoopItem) : list SequenceStep :=
  match item with
  | IStep s => [s]
  | ILoop _ r cs _ => concat (repeat (flat_map flatten_unit cs) (Z.to_nat r))
  end.

Definition flatten_spec (t : list LoopItem) : list SequenceStep :=
  flat_map flatten_unit t.

(** The length as the specification words it: 1 for a step,
    [R * (length of the flattened children)] for a loop, summed over the
    units. *)
Fixpoint unit_length (item : LoopItem) : nat :=
  match item with
  | IStep _ => 1
  | ILoop _ r cs _ => Z.to_nat r * list_sum (map unit_length cs)
  end.

Definition flat_length (t : list LoopItem) : nat :=
  list_sum (map unit_length t).

(* ===================================================================== *)
(** ** Tree editor: pure parts *)
(* ===================================================================== *)

(** The body of the [for (const item of items)] of [parentExists]: [true]
    when one of its two [return true] is taken for [item]. *)
Fixpoint parentExists_at (parentId : string) (item : LoopItem) : bool :=
  if String.eqb (item_id item) parentId then true
  else match item with
       | ILoop _ _ cs _ => existsb (parentExists_at parentId) cs
       | IStep _ => false
       end.

(** [parentExists(items, parentId)]. *)
Definition parentExists (items : list LoopItem) (parentId : string) : bool :=
  existsb (parentExists_at parentId) items.

(** The callback of [items.map] in [updateItems] of
    [addStepToParent(parentId, item)]. *)
Fixpoint updateItem (parentId : string) (item : LoopItem) (i : LoopItem)
  : LoopItem :=
  match i with
  | ILoop l r cs lb =>
      if String.eqb l parentId then ILoop l r (cs ++ [item]) lb
      else ILoop l r (map (updateItem parentId item) cs) lb
  | IStep _ => i
  end.

Definition updateItems (parentId : string) (item : LoopItem)
           (items : list LoopItem) : list LoopItem :=
  map (updateItem parentId item) items.

Section FilterMap.
Context {A B : Type}.
Variables (keep : A -> bool) (f : A -> B).

(** [xs.filter(keep).map(f)] in one pass. *)
Fixpoint filter_map (xs : list A) : list B :=
  match xs with
  | [] => []
  | x :: rest => if keep x then f x :: filter_map rest else filter_map rest
  end.
End FilterMap.

(** The callback of [.map] in [removeFromItems] of [removeItem(id)]. *)
Fixpoint removeFromItem (rid : string) (item : LoopItem) : LoopItem :=
  match item with
  | ILoop l r cs lb =>
      ILoop l r
        (filter_map (fun c => negb (String.eqb (item_id c) rid))
                    (removeFromItem rid) cs) lb
  | IStep _ => item
  end.

(** [removeFromItems(items)]:
    [items.filter(item => item.id !== id).map(item => ...)]. *)
Definition removeFromItems (rid : string) (items : list LoopItem)
  : list LoopItem :=
  filter_map (fun c => negb (String.eqb (item_id c) rid))
             (removeFromItem rid) items.

(* ===================================================================== *)
(** ** JavaScript primitives used by the handlers *)
(* ===================================================================== *)

(** Truthiness of a [string | null]: [null] and the empty string are
    falsy. *)
Definition truthy (v : option string) : bool :=
  match v with
  | None => false
  | Some s => negb (String.eqb s "")
  end.

Definition is_digit (c : ascii) : bool :=
  let n := nat_of_ascii c in (48 <=? n)%nat && (n <=? 57)%nat.

(** [text.replace(/[^0-9]/g, "")] *)
Fixpoint keep_digits (text : string) : string :=
  match text with
  | EmptyString => EmptyString
  | String c rest =>
      if is_digit c then String c (keep_digits rest) else keep_digits rest
  end.

(** White space skipped by [parseInt] (the ASCII part of it). *)
Definition is_space (c : ascii) : bool :=
  let n := nat_of_ascii c in
  (n =? 32)%nat || ((9 <=? n)%nat && (n <=? 13)%nat).

Fixpoint skip_spaces (s : string) : string :=
  match s with
  | String c rest => if is_space c then skip_spaces rest else s
  | EmptyString => s
  end.

(** Value of a character as a digit in the given radix (10 or 16). *)
Definition digit_value (radix : Z) (c : ascii) : option Z :=
  let n := Z.of_nat (nat_of_ascii c) in
  let v := if (48 <=? n)%Z && (n <=? 57)%Z then Some (n - 48)%Z
           else if (97 <=? n)%Z && (n <=? 122)%Z then Some (n - 87)%Z
           else if (65 <=? n)%Z && (n <=? 90)%Z then Some (n - 55)%Z
           else None in
  match v with
  | Some d => if (d <? radix)%Z then Some d else None
  | None => None
  end.

(** The longest prefix of digits, read in the radix; [None] when the
    prefix is empty. *)
Fixpoint read_digits (radix : Z) (s : string) (acc : option Z) : option Z :=
  match s with
  | EmptyString => acc
  | String c rest =>
      match digit_value radix c with
      | Some d =>
          read_digits radix rest
            (Some (match acc with Some a => a * radix + d | None => d end)%Z)
      | None => acc
      end
  end.

(** [parseInt(s)] with no radix argument; [None] is [NaN].  Leading white
    space, an optional sign and an optional [0x]/[0X] prefix are accepted,
    then the longest prefix of digits is read. *)
Definition parseInt (s : string) : option Z :=
  let s1 := skip_spaces s in
  let '(sign, s2) :=
    match s1 with
    | String "-" rest => ((-1)%Z, rest)
    | String "+" rest => (1%Z, rest)
    | _ => (1%Z, s1)
    end in
  let '(radix, s3) :=
    match s2 with
    | String "0" (String "x" rest) => (16%Z, rest)
    | String "0" (String "X" rest) => (16%Z, rest)
    | _ => (10%Z, s2)
    end in
  match read_digits radix s3 None with
  | Some v => Some (sign * v)%Z
  | None => None
  end.

(** [n || d] for a number [n]: [NaN] and [0] are falsy. *)
Definition num_or (n : option Z) (d : Z) : Z :=
  match n with
  | Some v => if (v =? 0)%Z then d else v
  | None => d
  end.

(* ===================================================================== *)
(** ** Component state and effects *)
(* ===================================================================== *)

(** Calls that leave the component: [playBeep()] and [Alert.alert]. *)
Inductive Effect : Type :=
| PlayBeep
| AlertShown (title message : string).

(** The [useState] cells of [HomeScreen] that the handlers below read or
    write, and the log of the effects issued so far (latest last). *)
Record App : Type := mkApp {
  minutes : string;
  seconds : string;
  isTimerPlaying : bool;
  currentStepIndex : nat;
  resetKey : nat;
  items : list LoopItem;
  flattenedSequence : list SequenceStep;
  isLoopModalVisible : bool;
  loopRepetitions : string;
  currentParentId : option string;
  effects : list Effect
}.

(** The initial values of the [useState] calls. *)
Definition initialApp : App :=
  {| minutes := ""; seconds := ""; isTimerPlaying := false;
     currentStepIndex := 0; resetKey := 0; items := [];
     flattenedSequence := []; isLoopModalVisible := false;
     loopRepetitions := "1"; currentParentId := None; effects := [] |}.

(** A handler: a transformer of the state that returns a value. *)
Definition M (A : Type) : Type := App -> A * App.

Definition ret {A} (a : A) : M A := fun s => (a, s).
Definition bind {A B} (m : M A) (k : A -> M B) : M B :=
  fun s => let '(a, s') := m s in k a s'.

Declare Scope handler_scope.
Delimit Scope handler_scope with handler.
Notation "x <- m ;; k" := (bind m (fun x => k))
  (at level 61, m at next level, right associativity) : handler_scope.
Notation "m ;; k" := (bind m (fun _ => k))
  (at level 61, right associativity) : handler_scope.
Local Open Scope handler_scope.

Definition exec {A} (m : M A) (s : App) : App := snd (m s).
Definition result {A} (m : M A) (s : App) : A := fst (m s).

(** The values captured by the closure of the current render. *)
Definition render : M App := fun s => (s, s).

Definition when (b : bool) (m : M unit) : M unit :=
  if b then m else ret tt.

Definition setMinutes (v : string) : M unit := fun s =>
  (tt, mkApp v (seconds s) (isTimerPlaying s) (currentStepIndex s) (resetKey s)
          (items s) (flattenedSequence s) (isLoopModalVisible s)
          (loopRepetitions s) (currentParentId s) (effects s)).
Definition setSeconds (v : string) : M unit := fun s =>
  (tt, mkApp (minutes s) v (isTimerPlaying s) (currentStepIndex s) (resetKey s)
          (items s) (flattenedSequence s) (isLoopModalVisible s)
          (loopRepetitions s) (currentParentId s) (effects s)).
Definition setIsTimerPlaying (v : bool) : M unit := fun s =>
  (tt, mkApp (minutes s) (seconds s) v (currentStepIndex s) (resetKey s)
          (items s) (flattenedSequence s) (isLoopModalVisible s)
          (loopRepetitions s) (currentParentId s) (effects s)).
(** The setters below take the functional form [setX(prev => ...)]. *)
Definition setCurrentStepIndex (f : nat -> nat) : M unit := fun s =>
  (tt, mkApp (minutes s) (seconds s) (isTimerPlaying s) (f (currentStepIndex s))
          (resetKey s) (items s) (flattenedSequence s) (isLoopModalVisible s)
          (loopRepetitions s) (currentParentId s) (effects s)).
Definition setResetKey (f : nat -> nat) : M unit := fun s =>
  (tt, mkApp (minutes s) (seconds s) (isTimerPlaying s) (currentStepIndex s)
          (f (resetKey s)) (items s) (flattenedSequence s)
          (isLoopModalVisible s) (loopRepetitions s) (currentParentId s)
          (effects s)).
Definition setItems (f : list LoopItem -> list LoopItem) : M unit := fun s =>
  (tt, mkApp (minutes s) (seconds s) (isTimerPlaying s) (currentStepIndex s)
          (resetKey s) (f (items s)) (flattenedSequence s)
          (isLoopModalVisible s) (loopRepetitions s) (currentParentId s)
          (effects s)).
Definition setFlattenedSequence (v : list SequenceStep) : M unit := fun s =>
  (tt, mkApp (minutes s) (seconds s) (isTimerPlaying s) (currentStepIndex s)
          (resetKey s) (items s) v (isLoopModalVisible s)
          (loopRepetitions s) (currentParentId s) (effects s)).
Definition setIsLoopModalVisible (v : bool) : M unit := fun s =>
  (tt, mkApp (minutes s) (seconds s) (isTimerPlaying s) (currentStepIndex s)
          (resetKey s) (items s) (flattenedSequence s) v
          (loopRepetitions s) (currentParentId s) (effects s)).
Definition setLoopRepetitions (v : string) : M unit := fun s =>
  (tt, mkApp (minutes s) (seconds s) (isTimerPlaying s) (currentStepIndex s)
          (resetKey s) (items s) (flattenedSequence s) (isLoopModalVisible s)
          v (currentParentId s) (effects s)).
Definition setCurrentParentId (v : option string) : M unit := fun s =>
  (tt, mkApp (minutes s) (seconds s) (isTimerPlaying s) (currentStepIndex s)
          (resetKey s) (items s) (flattenedSequence s) (isLoopModalVisible s)
          (loopRepetitions s) v (effects s)).
Definition emit (e : Effect) : M unit := fun s =>
  (tt, mkApp (minutes s) (seconds s) (isTimerPlaying s) (currentStepIndex s)
          (resetKey s) (items s) (flattenedSequence s) (isLoopModalVisible s)
          (loopRepetitions s) (currentParentId s) (effects s ++ [e])).

(** [playBeep()]: fire and forget; its own failures are caught inside. *)
Definition playBeep : M unit := emit PlayBeep.

(* ===================================================================== *)
(** ** Handlers of [HomeScreen] *)
(* ===================================================================== *)

(** [resetTimer] *)
Definition resetTimer : M unit :=
  setCurrentStepIndex (fun _ => 0) ;;
  setIsTimerPlaying false ;;
  setResetKey (fun prev => prev + 1).

(** The [useEffect] on [items]: [setFlattenedSequence(flattenSequence(items))]. *)
Definition flattenEffect : M unit :=
  r <- render ;;
  setFlattenedSequence (flattenSequence (items r)).

(** The guard [currentParentId && !parentExists(its, currentParentId)]. *)
Definition parentMissing (its : list LoopItem) (parent : option string) : bool :=
  match parent with
  | Some p => truthy parent && negb (parentExists its p)
  | None => false
  end.

(** [addStepToParent(parentId, item)] *)
Definition addStepToParent (parentId : option string) (item : LoopItem)
  : M unit :=
  match parentId with
  | Some p =>
      if negb (truthy parentId) then setItems (fun prev => prev ++ [item])
      else setItems (fun prev => updateItems p item prev)
  | None => setItems (fun prev => prev ++ [item])
  end.

(** The insertion shared by [addStep] and [addLoop]:
    [if (currentParentId && !parentExists(items, currentParentId))
       setItems(prev => [...prev, unit])
     else addStepToParent(currentParentId, unit)]. *)
Definition insertUnit (unit_ : LoopItem) : M unit :=
  r <- render ;;
  if parentMissing (items r) (currentParentId r)
  then setItems (fun prev => prev ++ [unit_])
  else addStepToParent (currentParentId r) unit_.

(** [addLoop(repetitions)]; [now] is [Date.now().toString()]. *)
Definition addLoop (now : string) (repetitions : Z) : M unit :=
  let newLoop := ILoop now repetitions [] None in
  insertUnit newLoop ;;
  setIsLoopModalVisible false ;;
  setLoopRepetitions "1".

(** [addStep()]; [now] is [Date.now().toString()]. *)
Definition totalTime (r : App) : Z :=
  let mins := num_or (parseInt (minutes r)) 0 in
  let secs := num_or (parseInt (seconds r)) 0 in
  (mins * 60 + secs)%Z.

Definition addStep (now : string) : M unit :=
  r <- render ;;
  if (totalTime r >? 0)%Z then
    let newStep := IStep {| time := totalTime r; label := None; id := now |} in
    insertUnit newStep ;;
    setMinutes "" ;;
    setSeconds ""
  else ret tt.

(** [removeItem(id)] *)
Definition removeItem (rid : string) : M unit :=
  r <- render ;;
  let newItems := removeFromItems rid (items r) in
  setItems (fun _ => newItems) ;;
  when (match currentParentId r with
        | Some p => String.eqb p rid
        | None => false
        end
        || parentMissing newItems (currentParentId r))
       (setCurrentParentId None).

(** [openLoopModal()] *)
Definition openLoopModal : M unit :=
  r <- render ;;
  when (parentMissing (items r) (currentParentId r)) (setCurrentParentId None) ;;
  setIsLoopModalVisible true.

(** [startSequence()] *)
Definition startSequence : M unit :=
  r <- render ;;
  if (length (flattenedSequence r) =? 0)%nat then ret tt
  else
    setCurrentStepIndex (fun _ => 0) ;;
    setIsTimerPlaying true ;;
    playBeep.

(** The Pause button: [() => setIsTimerPlaying(false)]. *)
Definition pause : M unit := setIsTimerPlaying false.

(** The value [handleComplete] returns to the countdown widget. *)
Record CompleteResult : Type := mkComplete {
  shouldRepeat : bool;
  delay : option Z
}.

(** [handleComplete(totalElapsedTime)]; the argument is not used. *)
Definition handleComplete : M CompleteResult :=
  r <- render ;;
  if (Z.of_nat (currentStepIndex r)
      <? Z.of_nat (length (flattenedSequence r)) - 1)%Z
  then
    setCurrentStepIndex (fun prev => prev + 1) ;;
    playBeep ;;
    ret {| shouldRepeat := true; delay := Some 0%Z |}
  else
    resetTimer ;;
    ret {| shouldRepeat := false; delay := None |}.

(** The duration handed to the countdown widget:
    [flattenedSequence[currentStepIndex]?.time || 10]. *)
Definition activeDuration (s : App) : Z :=
  num_or (option_map time (nth_error (flattenedSequence s) (currentStepIndex s)))
         10.

(** The key of the countdown widget: [`${resetKey}-${currentStepIndex}`]. *)
Definition timerKey (s : App) : nat * nat := (resetKey s, currentStepIndex s).

(* ===================================================================== *)
(** ** Events of the screen *)
(* ===================================================================== *)

(** [SequenceLoaded its] is the focus effect having read a stored sequence
    whose [items] is the tree [its]: [setItems(parsed.items)]. *)
Inductive Event : Type :=
| ChangeMinutes (text : string)
| ChangeSeconds (text : string)
| PressAdd (now : string)
| PressOpenLoopModal
| ChangeLoopRepetitions (text : string)
| PressCreateLoop (now : string)
| PressAddToLoop (loop : string)
| PressRemove (rid : string)
| SequenceLoaded (its : list LoopItem)
| FlattenEffect
| PressStart
| PressPause
| PressReset
| TimerComplete.

Definition step (e : Event) : App -> App :=
  match e with
  | ChangeMinutes text => exec (setMinutes (keep_digits text))
  | ChangeSeconds text => exec (setSeconds (keep_digits text))
  | PressAdd now => exec (addStep now)
  | PressOpenLoopModal => exec openLoopModal
  | ChangeLoopRepetitions text => exec (setLoopRepetitions (keep_digits text))
  | PressCreateLoop now =>
      fun s => exec (addLoop now (num_or (parseInt (loopRepetitions s)) 1)) s
  | PressAddToLoop loop => exec (setCurrentParentId (Some loop))
  | PressRemove rid => exec (removeItem rid)
  | SequenceLoaded its => exec (setItems (fun _ => its))
  | FlattenEffect => exec flattenEffect
  | PressStart => exec startSequence
  | PressPause => exec pause
  | PressReset => exec resetTimer
  | TimerComplete => exec handleComplete
  end.

Definition string_mem (x : string) (l : list string) : bool :=
  existsb (String.eqb x) l.

(** What the screen allows in a state: the [disabled] attributes of the
    buttons, the buttons that are rendered, and the countdown firing only
    while it is playing. *)
Definition enabled (e : Event) (s : App) : bool :=
  let nonEmpty := negb (length (flattenedSequence s) =? 0)%nat in
  match e with
  | PressStart => nonEmpty && negb (isTimerPlaying s)
  | PressPause => nonEmpty && isTimerPlaying s
  | PressReset => nonEmpty
  | TimerComplete => isTimerPlaying s
  | PressAddToLoop loop => string_mem loop (loop_ids (items s))
  | PressRemove rid => string_mem rid (ids (items s))
  | PressCreateLoop _ | ChangeLoopRepetitions _ => isLoopModalVisible s
  | _ => true
  end.

(** Running a sequence of events, first event first. *)
Definition run (tr : list Event) (s : App) : App :=
  fold_left (fun acc e => step e acc) tr s.

(** Every event of the trace is allowed in the state it occurs in. *)
Fixpoint allowed (tr : list Event) (s : App) : bool :=
  match tr with
  | [] => true
  | e :: rest => enabled e s && allowed rest (step e s)
  end.

(** The events that can take entries away from the tree. *)
Definition replaces_tree (e : Event) : bool :=
  match e with
  | PressRemove _ | SequenceLoaded _ => true
  | _ => false
  end.

(** After an event that replaces the tree ([removeItem] or a load), in
    the state [s1] it leaves: either nothing follows yet, or the flatten
    effect follows next and the current index is 0 or inside the flattening
    of the new tree. *)
Definition after_replacement_ok (s1 : App) (rest : list Event) : bool :=
  match rest with
  | [] => true
  | FlattenEffect :: _ =>
      (currentStepIndex s1 =? 0)%nat
      || (currentStepIndex s1 <? length (flattenSequence (items s1)))%nat
  | _ => false
  end.

(** Every replacement of the tree in the trace satisfies
    [after_replacement_ok]. *)
Fixpoint index_safe (tr : list Event) (s : App) : bool :=
  match tr with
  | [] => true
  | e :: rest =>
      (if replaces_tree e then after_replacement_ok (step e s) rest else true)
      && index_safe rest (step e s)
  end.

(** The playback invariant of the specification. *)
Definition index_in_range (s : App) : Prop :=
  (0 < length (flattenedSequence s) ->
   currentStepIndex s < length (flattenedSequence s)) /\
  (length (flattenedSequence s) = 0 -> currentStepIndex s = 0).

(* ===================================================================== *)
(** ** Derived notions and scenarios *)
(* ===================================================================== *)

(** The selection that [removeItem(rid)] leaves. *)
Definition selection_after_remove (rid : string) (s : App) : option string :=
  if match currentParentId s with
     | Some p => String.eqb p rid
     | None => false
     end || parentMissing (removeFromItems rid (items s)) (currentParentId s)
  then None else currentParentId s.

(** The tree that [insertUnit] leaves. *)
Definition inserted (u : LoopItem) (s : App) : list LoopItem :=
  match currentParentId s with
  | None => items s ++ [u]
  | Some p =>
      if String.eqb p "" then items s ++ [u]
      else if parentExists (items s) p then updateItems p u (items s)
           else items s ++ [u]
  end.

(** What the proof carries along: the flattened list in the state is never
    longer than the flattening of the current tree, and the index is 0 or
    inside the flattened list. *)
Definition playback_invariant (s : App) : Prop :=
  length (flattenedSequence s) <= flat_length (items s) /\
  (currentStepIndex s = 0 \/
   currentStepIndex s < length (flattenedSequence s)).

(** The tree is replaced while a loop is selected, as the focus effect
    does; the selected id then names no unit, and removing an unrelated
    step resets it. *)
Definition stale_selection_trace : list Event :=
  [PressOpenLoopModal; PressCreateLoop "1"; PressAddToLoop "1";
   SequenceLoaded [IStep (mkStep 10 None "5"); IStep (mkStep 20 None "6")]].

(** A loop is selected, then the tree is replaced by a stored sequence in
    which the same id belongs to a step. *)
Definition step_parent_trace : list Event :=
  [PressOpenLoopModal; PressCreateLoop "7"; PressAddToLoop "7";
   SequenceLoaded [IStep (mkStep 10 None "7")]; FlattenEffect].

(** Two steps are added, the sequence is started, the first step
    completes and the user pauses: Paused at index 1. *)
Definition paused_at_1_trace : list Event :=
  [ChangeSeconds "30"; PressAdd "1"; FlattenEffect;
   ChangeSeconds "10"; PressAdd "2"; FlattenEffect;
   PressStart; TimerComplete; PressPause].

(** Three steps, started, at index 0: step-complete goes to index 1. *)
Definition running_trace : list Event :=
  [ChangeSeconds "30"; PressAdd "1"; ChangeSeconds "10"; PressAdd "2";
   ChangeSeconds "5"; PressAdd "3"; FlattenEffect; PressStart].

(** Three steps are added and played up to the second one; the third step
    is removed while the index is 1, the timer is reset, the first step is
    removed at index 0, and a stored sequence is loaded. *)
Definition safe_removal_trace : list Event :=
  [ChangeSeconds "30"; PressAdd "1"; FlattenEffect;
   ChangeSeconds "10"; PressAdd "2"; FlattenEffect;
   ChangeSeconds "5"; PressAdd "3"; FlattenEffect;
   PressStart; TimerComplete; PressRemove "3"; FlattenEffect;
   PressReset; PressRemove "1"; FlattenEffect;
   SequenceLoaded [IStep (mkStep 20 None "7")]; FlattenEffect; PressStart].

(** Two steps are added and played up to the second one; then the second
    step is removed and the flattened list recomputed. *)
Definition removal_trace : list Event :=
  [ChangeSeconds "30"; PressAdd "1"; FlattenEffect;
   ChangeSeconds "10"; PressAdd "2"; FlattenEffect;
   PressStart; TimerComplete; PressRemove "2"; FlattenEffect].

(* ===================================================================== *)
(** ** Loading the working sequence *)
(* ===================================================================== *)

Module Persistence.

(** A value produced by [JSON.parse] (numbers restricted to integers).
    An object is the list of its properties in insertion order, each key
    once. *)
#[warnings="-register-all"]
Inductive JSON : Type :=
| JNull
| JBool (b : bool)
| JNumber (n : Z)
| JString (s : string)
| JArray (elements : list JSON)
| JObject (props : list (string * JSON)).

(** What [await AsyncStorage.getItem("@current_sequence")] followed by
    [JSON.parse] can give. *)
Inductive Stored : Type :=
| ReadRejected            (* getItem rejects *)
| NoValue                 (* null or the empty string: a falsy jsonValue *)
| NotJSON                 (* JSON.parse throws a SyntaxError *)
| Parsed (parsed : JSON).

(** Property lookup in an object; [None] is [undefined]. *)
Fixpoint lookup (key : string) (props : list (string * JSON)) : option JSON :=
  match props with
  | [] => None
  | (k, v) :: rest => if String.eqb k key then Some v else lookup key rest
  end.

(** Assignment of a property: an existing key keeps its place. *)
Fixpoint assign (key : string) (v : JSON) (props : list (string * JSON))
  : list (string * JSON) :=
  match props with
  | [] => [(key, v)]
  | (k, w) :: rest =>
      if String.eqb k key then (k, v) :: rest
      else (k, w) :: assign key v rest
  end.

(** An expression either has a value or throws (a [TypeError] here). *)
Inductive Completion (A : Type) : Type :=
| Normal (a : A)
| Throws.
Arguments Normal {A} a.
Arguments Throws {A}.

(** [parsed.items]: a [TypeError] on [null], [undefined] on a value that
    has no such property. *)
Definition get_items (parsed : JSON) : Completion (option JSON) :=
  match parsed with
  | JNull => Throws
  | JObject props => Normal (lookup "items" props)
  | _ => Normal None
  end.

(** [Array.isArray(v)] for a possibly undefined [v]. *)
Definition isArray (v : option JSON) : bool :=
  match v with
  | Some (JArray _) => true
  | _ => false
  end.

Definition index_key (i : nat) : string :=
  NilEmpty.string_of_uint (Nat.to_uint i).

Fixpoint indexed {A} (i : nat) (xs : list A) : list (string * A) :=
  match xs with
  | [] => []
  | x :: rest => (index_key i, x) :: indexed (S i) rest
  end.

Fixpoint chars (s : string) : list JSON :=
  match s with
  | EmptyString => []
  | String c rest => JString (String c EmptyString) :: chars rest
  end.

(** The own enumerable properties that an object spread [...v] copies:
    the fields of an object, the indexed elements of an array or of a
    string, nothing for the other values. *)
Definition own_props (v : JSON) : list (string * JSON) :=
  match v with
  | JObject props => props
  | JArray elements => indexed 0 elements
  | JString s => indexed 0 (chars s)
  | JNull | JBool _ | JNumber _ => []
  end.

(** [{ type: "step", ...step }] *)
Definition tagStep (step : JSON) : JSON :=
  JObject (fold_left (fun o kv => assign (fst kv) (snd kv) o)
                     (own_props step) [("type", JString "step")]).

(** The part of the screen's state that loading touches: the value held
    by the [items] cell (not checked against [LoopItem[]] at run time)
    and the notices shown. *)
Record Screen : Type := mkScreen {
  rawItems : list JSON;
  notices : list Effect
}.

Definition setRawItems (v : list JSON) (s : Screen) : Screen :=
  {| rawItems := v; notices := notices s |}.

(** The [catch] branch: [Alert.alert("Erreur", "Impossible de charger la séquence")]. *)
Definition loadFailure : Effect :=
  AlertShown "Erreur" "Impossible de charger la séquence".

Definition alertLoadFailure (s : Screen) : Screen :=
  {| rawItems := rawItems s; notices := notices s ++ [loadFailure] |}.

(** [loadSequence] of the focus effect. *)
Definition loadSequence (stored : Stored) (s : Screen) : Screen :=
  match stored with
  | ReadRejected => alertLoadFailure s
  | NoValue => s
  | NotJSON => alertLoadFailure s
  | Parsed parsed =>
      match get_items parsed with
      | Throws => alertLoadFailure s
      | Normal its =>
          if isArray its then
            match its with
            | Some (JArray elements) => setRawItems elements s
            | _ => s
            end
          else
            (* parsed.map(...) exists on arrays only; the call throws a
               TypeError on every other value *)
            match parsed with
            | JArray steps => setRawItems (map tagStep steps) s
            | _ => alertLoadFailure s
            end
      end
  end.

(** Reading a parsed record as a [SequenceStep]: the tag, a numeric
    [time], a string [id] and an optional string [label]. *)
Definition asStep (v : JSON) : option SequenceStep :=
  match v with
  | JObject props =>
      match lookup "type" props, lookup "time" props, lookup "id" props with
      | Some (JString "step"), Some (JNumber t), Some (JString i) =>
          match lookup "label" props with
          | None => Some {| time := t; label := None; id := i |}
          | Some (JString l) => Some {| time := t; label := Some l; id := i |}
          | Some _ => None
          end
      | _, _, _ => None
      end
  | _ => None
  end.

Definition has_key (key : string) (v : JSON) : bool :=
  match v with
  | JObject props =>
      match lookup key props with Some _ => true | None => false end
  | _ => false
  end.

End Persistence.

(* ===================================================================== *)
(** ** The library screen: total time of a sequence *)
(* ===================================================================== *)

(** What one unit adds to [total] in the callback of [items.reduce] in
    [calculateTotalTime]: [item.time] for a step,
    [calculateTotalTime(loop.children) * loop.repetitions] for a loop. *)
Fixpoint itemTime (item : LoopItem) : Z :=
  match item with
  | IStep s => time s
  | ILoop _ r cs _ =>
      (fold_left (fun total c => total + itemTime c) cs 0 * r)%Z
  end.

(** [calculateTotalTime(items)] of [TabTwoScreen]. *)
Definition calculateTotalTime (items : list LoopItem) : Z :=
  fold_left (fun total item => (total + itemTime item)%Z) items 0%Z.

(** The step records of a tree, in pre-order, each once. *)
Fixpoint item_steps (item : LoopItem) : list SequenceStep :=
  match item with
  | IStep s => [s]
  | ILoop _ _ cs _ => flat_map item_steps cs
  end.

Definition steps_of (t : list LoopItem) : list SequenceStep :=
  flat_map item_steps t.

(** Every loop of the tree has at least [lo] repetitions. *)
Fixpoint item_repetitions_from (lo : Z) (item : LoopItem) : bool :=
  match item with
  | IStep _ => true
  | ILoop _ r cs _ => (lo <=? r)%Z && forallb (item_repetitions_from lo) cs
  end.

Definition repetitions_from (lo : Z) (t : list LoopItem) : bool :=
  forallb (item_repetitions_from lo) t.

(** Sum of a list of durations. *)
Definition zsum (l : list Z) : Z := fold_right Z.add 0%Z l.

(* ===================================================================== *)
(** ** Editing sessions *)
(* ===================================================================== *)

(** An event of an editing session in the state where it occurs: the
    screen allows it, the tree is not replaced by a load, and the
    timestamp of a new unit is not the id of a unit of the tree. *)
Definition editor_ok (e : Event) (s : App) : bool :=
  enabled e s &&
  match e with
  | PressAdd now | PressCreateLoop now =>
      negb (string_mem now (ids (items s)))
  | SequenceLoaded _ => false
  | _ => true
  end.

Fixpoint editor_trace (tr : list Event) (s : App) : bool :=
  match tr with
  | [] => true
  | e :: rest => editor_ok e s && editor_trace rest (step e s)
  end.

(** The selected parent is none, the empty string, or the id of a loop of
    the tree. *)
Definition selection_ok (s : App) : Prop :=
  match currentParentId s with
  | None => True
  | Some p => p = "" \/ In p (loop_ids (items s))
  end.

(** Every step lasts more than 0 seconds and every loop repeats at least
    once. *)
Fixpoint valid_unit (item : LoopItem) : bool :=
  match item with
  | IStep s => (0 <? time s)%Z
  | ILoop _ r cs _ => (1 <=? r)%Z && forallb valid_unit cs
  end.

Definition valid_units (t : list LoopItem) : bool := forallb valid_unit t.

Fixpoint all_digits (s : string) : bool :=
  match s with
  | EmptyString => true
  | String c rest => is_digit c && all_digits rest
  end.

Definition is_load (e : Event) : bool :=
  match e with
  | SequenceLoaded _ => true
  | _ => false
  end.

(** What an editing session keeps: unique ids and a selected parent that
    is none, empty, or a loop of the tree. *)
Definition session_invariant (s : App) : Prop :=
  NoDup (ids (items s)) /\ selection_ok s.

(** An editing session: a loop is created and selected, a step is added
    into it, a second loop is added into it and removed again. *)
Definition session_trace : list Event :=
  [PressOpenLoopModal; ChangeLoopRepetitions "3"; PressCreateLoop "1";
   PressAddToLoop "1"; ChangeSeconds "20"; PressAdd "2"; FlattenEffect;
   PressOpenLoopModal; PressCreateLoop "3"; PressAddToLoop "3";
   PressRemove "3"; FlattenEffect].

(** What is kept as long as the tree only changes through the editor:
    valid units in the tree, digits in the repetitions field, and positive
    durations in the flattened list. *)
Definition units_invariant (s : App) : Prop :=
  valid_units (items s) = true /\
  all_digits (loopRepetitions s) = true /\
  Forall (fun st => (0 < time st)%Z) (flattenedSequence s).

(* ===================================================================== *)
(** ** Displayed times *)
(* ===================================================================== *)

(** [n.toString()] for an integer [n]. *)
Definition toString (n : Z) : string :=
  match n with
  | Zneg p => "-" ++ NilEmpty.string_of_uint (Nat.to_uint (Pos.to_nat p))
  | _ => NilEmpty.string_of_uint (Nat.to_uint (Z.to_nat n))
  end.

Fixpoint zeros (n : nat) : string :=
  match n with
  | O => ""
  | S k => String "0" (zeros k)
  end.

(** [s.padStart(2, "0")] *)
Definition padStart2 (s : string) : string :=
  zeros (2 - String.length s) ++ s.

(** The two fields of [formatTime(totalSeconds)]:
    [Math.floor(totalSeconds / 60)] and [totalSeconds % 60]. *)
Definition minutesOf (totalSeconds : Z) : Z := (totalSeconds / 60)%Z.
Definition secondsOf (totalSeconds : Z) : Z := Z.rem totalSeconds 60.

(** [formatTime] of [HomeScreen]: both fields padded, [MM:SS]. *)
Definition formatTime (totalSeconds : Z) : string :=
  padStart2 (toString (minutesOf totalSeconds)) ++ ":"
  ++ padStart2 (toString (secondsOf totalSeconds)).

(** [formatTime] of [TabTwoScreen]: [`${minutes}m ${seconds padded}s`]. *)
Definition formatTimeLibrary (totalSeconds : Z) : string :=
  toString (minutesOf totalSeconds) ++ "m "
  ++ padStart2 (toString (secondsOf totalSeconds)) ++ "s".

(* ===================================================================== *)
(** ** The library of saved sequences *)
(* ===================================================================== *)

Module Library.
Import Persistence.

(** A JavaScript value as the library screen holds it: a parsed JSON value
    in which a property can also be [undefined]. *)
#[warnings="-register-all"]
Inductive Value : Type :=
| VUndefined
| VNull
| VBool (b : bool)
| VNumber (n : Z)
| VString (s : string)
| VArray (elements : list Value)
| VObject (props : list (string * Value)).

(** The value that [JSON.parse] returns. *)
Fixpoint ofJSON (j : JSON) : Value :=
  match j with
  | JNull => VNull
  | JBool b => VBool b
  | JNumber n => VNumber n
  | JString s => VString s
  | JArray elements => VArray (map ofJSON elements)
  | JObject props =>
      VObject ((fix go (ps : list (string * JSON)) : list (string * Value) :=
                  match ps with
                  | [] => []
                  | (k, v) :: rest => (k, ofJSON v) :: go rest
                  end) props)
  end.

(** What [JSON.parse] gives back on the text that [JSON.stringify(v)]
    writes: a property whose value is [undefined] is left out, an
    [undefined] element of an array becomes [null]. *)
Fixpoint stringify (v : Value) : JSON :=
  match v with
  | VUndefined => JNull
  | VNull => JNull
  | VBool b => JBool b
  | VNumber n => JNumber n
  | VString s => JString s
  | VArray elements => JArray (map stringify elements)
  | VObject props =>
      JObject ((fix go (ps : list (string * Value)) : list (string * JSON) :=
                  match ps with
                  | [] => []
                  | (k, VUndefined) :: rest => go rest
                  | (k, w) :: rest => (k, stringify w) :: go rest
                  end) props)
  end.

Fixpoint vlookup (key : string) (props : list (string * Value)) : Value :=
  match props with
  | [] => VUndefined
  | (k, v) :: rest => if String.eqb k key then v else vlookup key rest
  end.

Fixpoint vassign (key : string) (v : Value) (props : list (string * Value))
  : list (string * Value) :=
  match props with
  | [] => [(key, v)]
  | (k, w) :: rest =>
      if String.eqb k key then (k, v) :: rest
      else (k, w) :: vassign key v rest
  end.

(** [v.key] for one of the keys the screen reads ([steps], [items],
    [time], [label], [id]): a [TypeError] on [null] and [undefined],
    [undefined] on a value without that property. *)
Definition getProp (v : Value) (key : string) : Completion Value :=
  match v with
  | VUndefined | VNull => Throws
  | VObject props => Normal (vlookup key props)
  | _ => Normal VUndefined
  end.

Definition vtruthy (v : Value) : bool :=
  match v with
  | VUndefined | VNull => false
  | VBool b => b
  | VNumber n => negb (n =? 0)%Z
  | VString s => negb (String.eqb s "")
  | VArray _ | VObject _ => true
  end.

(** The own enumerable properties copied by [...v]. *)
Definition vown_props (v : Value) : list (string * Value) :=
  match v with
  | VObject props => props
  | VArray elements => indexed 0 elements
  | VString s => indexed 0 (map ofJSON (chars s))
  | _ => []
  end.

(** [xs.map(f)] for a callback that can throw; [f] gets the index so that
    each call can read its own clock value. *)
Fixpoint mapi {A B} (f : nat -> A -> Completion B) (i : nat) (xs : list A)
  : Completion (list B) :=
  match xs with
  | [] => Normal []
  | x :: rest =>
      match f i x with
      | Throws => Throws
      | Normal y =>
          match mapi f (S i) rest with
          | Throws => Throws
          | Normal ys => Normal (y :: ys)
          end
      end
  end.

(** The callback of [seq.steps.map]: [{ type: "step", time: step.time,
    label: step.label, id: step.id || Date.now().toString() }]; [now] is
    what [Date.now().toString()] gives at this call. *)
Definition migrateStep (now : string) (step : Value) : Completion Value :=
  match getProp step "time", getProp step "label", getProp step "id" with
  | Normal t, Normal l, Normal i =>
      Normal (VObject [("type", VString "step"); ("time", t); ("label", l);
                       ("id", if vtruthy i then i else VString now)])
  | _, _, _ => Throws
  end.

(** The callback of [parsed.map]; [clock k] is the timestamp read while
    migrating the step of index [k]. *)
Definition migrateEntry (clock : nat -> string) (seq : Value)
  : Completion Value :=
  match getProp seq "steps" with
  | Throws => Throws
  | Normal steps =>
      if vtruthy steps then
        match getProp seq "items" with
        | Throws => Throws
        | Normal its =>
            if negb (vtruthy its) then
              match steps with
              | VArray elements =>
                  match mapi (fun k => migrateStep (clock k)) 0 elements with
                  | Throws => Throws
                  | Normal mapped =>
                      Normal (VObject
                                (vassign "steps" VUndefined
                                   (vassign "items" (VArray mapped)
                                            (vown_props seq))))
                  end
              | _ => Throws   (* seq.steps.map is not a function *)
              end
            else Normal seq
        end
      else Normal seq
  end.

Inductive LibEffect : Type :=
| LogError (message : string)
| Alerted (title message : string)
| Confirm (title message : string)
| Navigated (screen : string).

(** The state of [TabTwoScreen] and what it has shown or logged. *)
Record LibraryScreen : Type := mkLibrary {
  savedSequences : list Value;
  isLoading : bool;
  shown : list LibEffect
}.

Definition initialLibrary : LibraryScreen :=
  {| savedSequences := []; isLoading := true; shown := [] |}.

Definition setSavedSequences (v : list Value) (s : LibraryScreen) :=
  {| savedSequences := v; isLoading := isLoading s; shown := shown s |}.
Definition setIsLoading (b : bool) (s : LibraryScreen) :=
  {| savedSequences := savedSequences s; isLoading := b; shown := shown s |}.
Definition show (es : list LibEffect) (s : LibraryScreen) :=
  {| savedSequences := savedSequences s; isLoading := isLoading s;
     shown := shown s ++ es |}.

(** The [catch] of [loadSavedSequences]. *)
Definition loadCatch : list LibEffect :=
  [LogError "Failed to load saved sequences:";
   Alerted "Erreur" "Échec du chargement des séquences sauvegardées"].

(** [loadSavedSequences]; [clock j k] is the timestamp read for the step
    [k] of the entry [j]. *)
Definition loadSavedSequences (stored : Stored) (clock : nat -> nat -> string)
           (s : LibraryScreen) : LibraryScreen :=
  let s1 := setIsLoading true s in
  let s2 :=
    match stored with
    | ReadRejected => show loadCatch s1
    | NoValue => setSavedSequences [] s1
    | NotJSON => show loadCatch s1
    | Parsed parsed =>
        match ofJSON parsed with
        | VArray seqs =>
            match mapi (fun j => migrateEntry (clock j)) 0 seqs with
            | Normal migrated => setSavedSequences migrated s1
            | Throws => show loadCatch s1
            end
        | _ => show loadCatch s1     (* parsed.map is not a function *)
        end
    end in
  setIsLoading false s2.

(** The two storage keys, each holding what [JSON.parse] would give on
    its text, or nothing. *)
Record Storage : Type := mkStorage {
  currentSequence : option JSON;   (* "@current_sequence" *)
  library : option JSON            (* "savedSequences" *)
}.

Definition readSlot (slot : option JSON) : Stored :=
  match slot with
  | Some j => Parsed j
  | None => NoValue
  end.

(** [handleLoadSequence(sequence)]; [writeOk] tells whether
    [AsyncStorage.setItem] resolves. *)
Definition handleLoadSequence (sequence : Value) (writeOk : bool)
           (st : Storage) (s : LibraryScreen) : Storage * LibraryScreen :=
  if writeOk then
    ({| currentSequence := Some (stringify sequence); library := library st |},
     show [Navigated "index"] s)
  else
    (st, show [LogError "Failed to load sequence:";
               Alerted "Erreur" "Échec du chargement de la séquence"] s).

(** [handleDeleteSequence(id)] only opens the confirmation dialog. *)
Definition handleDeleteSequence (sid : string) (s : LibraryScreen)
  : LibraryScreen :=
  show [Confirm "Confirmer la suppression"
                "Voulez-vous vraiment supprimer cette séquence ?"] s.

(** [sequence.id !== id] *)
Definition idDiffers (sid : string) (sequence : Value) : Completion bool :=
  match getProp sequence "id" with
  | Throws => Throws
  | Normal (VString i) => Normal (negb (String.eqb i sid))
  | Normal _ => Normal true
  end.

Fixpoint filterC {A} (f : A -> Completion bool) (xs : list A)
  : Completion (list A) :=
  match xs with
  | [] => Normal []
  | x :: rest =>
      match f x with
      | Throws => Throws
      | Normal keep =>
          match filterC f rest with
          | Throws => Throws
          | Normal ys => Normal (if keep then x :: ys else ys)
          end
      end
  end.

(** The [onPress] of the "Supprimer" button of the dialog.  It has no
    [catch] of its own: a [TypeError] while filtering leaves it before
    anything changed ([Throws]); otherwise the list is updated first and
    the write follows, and the last component tells whether the write
    resolved (when it is rejected the storage keeps its old content). *)
Definition confirmDelete (sid : string) (writeOk : bool)
           (st : Storage) (s : LibraryScreen)
  : Completion (Storage * LibraryScreen * bool) :=
  match filterC (idDiffers sid) (savedSequences s) with
  | Throws => Throws
  | Normal updated =>
      Normal (if writeOk
              then {| currentSequence := currentSequence st;
                      library := Some (JArray (map stringify updated)) |}
              else st,
              setSavedSequences updated s, writeOk)
  end.

End Library.

(* ===================================================================== *)
(** ** Saving from the home screen *)
(* ===================================================================== *)

Module Saving.
Import Persistence Library.

(** The cells of [HomeScreen] that saving reads or writes. *)
Record SaveScreen : Type := mkSave {
  treeItems : list JSON;            (* items *)
  sequenceName : string;
  sequenceDescription : string;
  isSaveModalVisible : bool;
  saveNotices : list LibEffect
}.

Definition notify (es : list LibEffect) (s : SaveScreen) : SaveScreen :=
  {| treeItems := treeItems s; sequenceName := sequenceName s;
     sequenceDescription := sequenceDescription s;
     isSaveModalVisible := isSaveModalVisible s;
     saveNotices := saveNotices s ++ es |}.

(** [showSaveModal()] *)
Definition showSaveModal (s : SaveScreen) : SaveScreen :=
  if (length (treeItems s) =? 0)%nat then
    notify [Alerted "Erreur" "Impossible de sauvegarder une séquence vide"] s
  else
    {| treeItems := treeItems s; sequenceName := sequenceName s;
       sequenceDescription := sequenceDescription s;
       isSaveModalVisible := true; saveNotices := saveNotices s |}.

(** The object that [saveCurrentSequence] writes; the two timestamps are
    the two calls of [Date.now()]. *)
Definition currentSequenceRecord (nowId nowCreated : Z) (its : list JSON)
  : JSON :=
  JObject [("id", JString (toString nowId));
           ("name", JString "Current Sequence");
           ("items", JArray its);
           ("createdAt", JNumber nowCreated)].

(** [saveCurrentSequence()]: a failed write is only logged. *)
Definition saveCurrentSequence (nowId nowCreated : Z) (writeOk : bool)
           (st : Storage) (s : SaveScreen) : Storage * SaveScreen :=
  if writeOk then
    ({| currentSequence :=
          Some (currentSequenceRecord nowId nowCreated (treeItems s));
        library := library st |}, s)
  else (st, notify [LogError "Failed to save current sequence"] s).

(** [newSequence] of [saveSequenceToLibrary]; [count] is
    [savedSequences.length]. *)
Definition newSequenceRecord (nowId nowCreated : Z) (count : nat)
           (s : SaveScreen) : JSON :=
  JObject [("id", JString (toString nowId));
           ("name",
            JString (if negb (String.eqb (sequenceName s) "")
                     then sequenceName s
                     else ("Séquence " ++ toString (Z.of_nat count + 1))%string));
           ("description", JString (sequenceDescription s));
           ("items", JArray (treeItems s));
           ("createdAt", JNumber nowCreated)].

Definition saveFailed (s : SaveScreen) : SaveScreen :=
  notify [Alerted "Erreur" "Échec de la sauvegarde"] s.

(** [saveSequenceToLibrary()]; [stored] is what reading and parsing
    ["savedSequences"] gives, [nows] the four timestamps read in order,
    [writeLibraryOk] and [writeCurrentOk] whether the two writes
    resolve. *)
Definition saveSequenceToLibrary (stored : Stored)
           (nows : Z * Z * Z * Z) (writeLibraryOk writeCurrentOk : bool)
           (st : Storage) (s : SaveScreen) : Storage * SaveScreen :=
  let '(n1, n2, n3, n4) := nows in
  let existing :=
    match stored with
    | ReadRejected => None
    | NotJSON => None
    | NoValue => Some []
    | Parsed (JArray entries) => Some entries
    | Parsed _ => None      (* push is not a function *)
    end in
  match existing with
  | None => (st, saveFailed s)
  | Some entries =>
      let newSequence := newSequenceRecord n1 n2 (length entries) s in
      if writeLibraryOk then
        let st1 := {| currentSequence := currentSequence st;
                      library := Some (JArray (entries ++ [newSequence])) |} in
        let '(st2, s2) := saveCurrentSequence n3 n4 writeCurrentOk st1 s in
        (st2,
         {| treeItems := treeItems s2; sequenceName := "";
            sequenceDescription := ""; isSaveModalVisible := false;
            saveNotices :=
              saveNotices s2
              ++ [Alerted "Succès"
                          "Séquence sauvegardée dans la bibliothèque !"] |})
      else (st, saveFailed s)
  end.

End Saving.

(* ===================================================================== *)
(** ** Notions about stored sequences *)
(* ===================================================================== *)

(** Induction over a JSON value: the elements of an array and the values
    of the properties of an object come with the property. *)
Section JSONInduction.
Import Persistence.
Variable P : JSON -> Prop.
Hypothesis P_null : P JNull.
Hypothesis P_bool : forall b, P (JBool b).
Hypothesis P_number : forall n, P (JNumber n).
Hypothesis P_string : forall s, P (JString s).
Hypothesis P_array : forall elements, Forall P elements -> P (JArray elements).
Hypothesis P_object :
  forall props, Forall (fun kv => P (snd kv)) props -> P (JObject props).

Fixpoint json_ind (j : JSON) : P j :=
  match j with
  | JNull => P_null
  | JBool b => P_bool b
  | JNumber n => P_number n
  | JString s => P_string s
  | JArray elements =>
      P_array elements
        ((fix go (es : list JSON) : Forall P es :=
            match es with
            | [] => Forall_nil _
            | e :: rest => Forall_cons e (json_ind e) (go rest)
            end) elements)
  | JObject props =>
      P_object props
        ((fix go (ps : list (string * JSON))
            : Forall (fun kv => P (snd kv)) ps :=
            match ps with
            | [] => Forall_nil _
            | (k, v) :: rest => Forall_cons (k, v) (json_ind v) (go rest)
            end) props)
  end.
End JSONInduction.

(** The properties of a parsed object as values, and those that
    [JSON.stringify] keeps. *)
Definition ofJSON_props (ps : list (string * Persistence.JSON))
  : list (string * Library.Value) :=
  map (fun kv => (fst kv, Library.ofJSON (snd kv))) ps.

Fixpoint stringify_props (ps : list (string * Library.Value))
  : list (string * Persistence.JSON) :=
  match ps with
  | [] => []
  | (k, Library.VUndefined) :: rest => stringify_props rest
  | (k, w) :: rest => (k, Library.stringify w) :: stringify_props rest
  end.

(** A stored entry that [loadSavedSequences] keeps as it is: it is not
    [null], and it has no truthy [steps] or it has a truthy [items]. *)
Definition currentShape (entry : Persistence.JSON) : bool :=
  match Library.ofJSON entry with
  | Library.VNull | Library.VUndefined => false
  | Library.VObject props =>
      negb (Library.vtruthy (Library.vlookup "steps" props))
      || Library.vtruthy (Library.vlookup "items" props)
  | _ => true
  end.

Definition nullish (v : Library.Value) : bool :=
  match v with
  | Library.VUndefined | Library.VNull => true
  | _ => false
  end.

(** The entry's [id] is the string [sid]. *)
Definition hasId (sid : string) (v : Library.Value) : bool :=
  match v with
  | Library.VObject props =>
      match Library.vlookup "id" props with
      | Library.VString i => String.eqb i sid
      | _ => false
      end
  | _ => false
  end.

(** [v.key] for a value that is neither [null] nor [undefined]. *)
Definition propOf (v : Library.Value) (key : string) : Library.Value :=
  match v with
  | Library.VObject props => Library.vlookup key props
  | _ => Library.VUndefined
  end.

(** The step that the migration makes of a legacy step that is not
    [null], and the list it makes of such steps, the step of index [k]
    reading the clock value [clock k]. *)
Definition migratedStep (now : string) (step : Library.Value)
  : Library.Value :=
  Library.VObject
    [("type", Library.VString "step");
     ("time", propOf step "time");
     ("label", propOf step "label");
     ("id", if Library.vtruthy (propOf step "id") then propOf step "id"
            else Library.VString now)].

Fixpoint migratedSteps (clock : nat -> string) (k : nat)
         (steps : list Library.Value) : list Library.Value :=
  match steps with
  | [] => []
  | st :: rest => migratedStep (clock k) st :: migratedSteps clock (S k) rest
  end.

Definition isNull (j : Persistence.JSON) : bool :=
  match j with
  | Persistence.JNull => true
  | _ => false
  end.

(* ===================================================================== *)
(** * Properties *)
(* ===================================================================== *)

(** ** Unfolding equations at the level of trees *)

Lemma filter_map_spec {A B} (keep : A -> bool) (f : A -> B) (xs : list A) :
  filter_map keep f xs = map f (filter keep xs).
Proof.
  induction xs as [|x rest IH]; simpl; [reflexivity|].
  destruct (keep x); simpl; now rewrite IH.
Qed.

Lemma ids_step s rest : ids (IStep s :: rest) = id s :: ids rest.
Proof. reflexivity. Qed.

Lemma ids_loop l r cs lb rest :
  ids (ILoop l r cs lb :: rest) = l :: ids cs ++ ids rest.
Proof. reflexivity. Qed.

Lemma loop_ids_step s rest : loop_ids (IStep s :: rest) = loop_ids rest.
Proof. reflexivity. Qed.

Lemma loop_ids_loop l r cs lb rest :
  loop_ids (ILoop l r cs lb :: rest) = l :: loop_ids cs ++ loop_ids rest.
Proof. reflexivity. Qed.

Lemma ids_under_step a s rest :
  ids_under a (IStep s :: rest) = ids_under a rest.
Proof. reflexivity. Qed.

Lemma ids_under_loop a l r cs lb rest :
  ids_under a (ILoop l r cs lb :: rest) =
  (if String.eqb l a then ids cs else ids_under a cs) ++ ids_under a rest.
Proof. unfold ids_under; simpl. now destruct (String.eqb l a). Qed.

Lemma parentExists_step s rest p :
  parentExists (IStep s :: rest) p = String.eqb (id s) p || parentExists rest p.
Proof. unfold parentExists; simpl. now destruct (String.eqb (id s) p). Qed.

Lemma parentExists_loop l r cs lb rest p :
  parentExists (ILoop l r cs lb :: rest) p =
  String.eqb l p || parentExists cs p || parentExists rest p.
Proof. unfold parentExists; simpl. now destruct (String.eqb l p). Qed.

Lemma updateItems_step p u s rest :
  updateItems p u (IStep s :: rest) = IStep s :: updateItems p u rest.
Proof. reflexivity. Qed.

Lemma updateItems_loop p u l r cs lb rest :
  updateItems p u (ILoop l r cs lb :: rest) =
  (if String.eqb l p then ILoop l r (cs ++ [u]) lb
   else ILoop l r (updateItems p u cs) lb) :: updateItems p u rest.
Proof. reflexivity. Qed.

Lemma removeFromItems_step rid s rest :
  removeFromItems rid (IStep s :: rest) =
  if String.eqb (id s) rid then removeFromItems rid rest
  else IStep s :: removeFromItems rid rest.
Proof. unfold removeFromItems; simpl. now destruct (String.eqb (id s) rid). Qed.

Lemma removeFromItems_loop rid l r cs lb rest :
  removeFromItems rid (ILoop l r cs lb :: rest) =
  if String.eqb l rid then removeFromItems rid rest
  else ILoop l r (removeFromItems rid cs) lb :: removeFromItems rid rest.
Proof. unfold removeFromItems; simpl. now destruct (String.eqb l rid). Qed.

(** [removeFromItems] is the [filter] followed by the [map] of the source. *)
Lemma removeFromItems_filter_map rid t :
  removeFromItems rid t =
  map (fun item => match item with
                   | ILoop l r cs lb => ILoop l r (removeFromItems rid cs) lb
                   | IStep _ => item
                   end)
      (filter (fun item => negb (String.eqb (item_id item) rid)) t).
Proof.
  unfold removeFromItems at 1. rewrite filter_map_spec.
  apply map_ext. now intros [s|l r cs lb].
Qed.

Lemma forEach_items_step s rest result :
  forEach_items (IStep s :: rest) result = forEach_items rest (result ++ [s]).
Proof. reflexivity. Qed.

Lemma forEach_items_loop l r cs lb rest result :
  forEach_items (ILoop l r cs lb :: rest) result =
  forEach_items rest (processItems cs r result).
Proof. reflexivity. Qed.

Lemma flatten_spec_step s rest :
  flatten_spec (IStep s :: rest) = s :: flatten_spec rest.
Proof. reflexivity. Qed.

Lemma flatten_spec_loop l r cs lb rest :
  flatten_spec (ILoop l r cs lb :: rest) =
  concat (repeat (flatten_spec cs) (Z.to_nat r)) ++ flatten_spec rest.
Proof. reflexivity. Qed.

Lemma flat_length_step s rest :
  flat_length (IStep s :: rest) = 1 + flat_length rest.
Proof. reflexivity. Qed.

Lemma flat_length_loop l r cs lb rest :
  flat_length (ILoop l r cs lb :: rest) =
  Z.to_nat r * flat_length cs + flat_length rest.
Proof. reflexivity. Qed.

(** ** Flattener *)

Lemma for_loop_append {A} (body : list A -> list A) (xs : list A) :
  (forall acc, body acc = acc ++ xs) ->
  forall n acc, for_loop body n acc = acc ++ concat (repeat xs n).
Proof.
  intros Hbody n. induction n as [|n IH]; intros acc; simpl.
  - now rewrite app_nil_r.
  - now rewrite IH, Hbody, <- app_assoc.
Qed.

Lemma forEach_items_spec t :
  forall result, forEach_items t result = result ++ flatten_spec t.
Proof.
  induction t as [|s rest IH|l r cs lb rest IHcs IHrest] using tree_ind;
    intros result.
  - simpl. now rewrite app_nil_r.
  - rewrite forEach_items_step, flatten_spec_step, IH, <- app_assoc.
    reflexivity.
  - rewrite forEach_items_loop, flatten_spec_loop, IHrest.
    unfold processItems. rewrite (for_loop_append _ (flatten_spec cs) IHcs).
    now rewrite <- app_assoc.
Qed.

Lemma flattenSequence_spec t : flattenSequence t = flatten_spec t.
Proof.
  unfold flattenSequence, processItems. simpl.
  now rewrite forEach_items_spec.
Qed.

Lemma length_concat_repeat {A} (xs : list A) n :
  length (concat (repeat xs n)) = n * length xs.
Proof.
  induction n as [|n IH]; simpl; [reflexivity|].
  now rewrite length_app, IH.
Qed.

Lemma length_flatten_spec t : length (flatten_spec t) = flat_length t.
Proof.
  induction t as [|s rest IH|l r cs lb rest IHcs IHrest] using tree_ind.
  - reflexivity.
  - rewrite flatten_spec_step, flat_length_step. simpl. now rewrite IH.
  - rewrite flatten_spec_loop, flat_length_loop, length_app,
      length_concat_repeat. now rewrite IHcs, IHrest.
Qed.

(** C5. [flattenSequence] emits one entry per step and, for a loop with
    repetition count [R], the flattening of its children [R] consecutive
    times ([Z.to_nat R] copies, that is [R] for [R >= 0] and none for
    [R <= 0]), followed by the flattening of the rest; so it agrees with
    the recursive description [flatten_spec], and its length is the sum of
    1 per step and [R * length of the flattened children] per loop
    ([flat_length]).  A loop with [R = 0] (or less) and an empty loop emit
    nothing.  The example tree flattens to the durations
    [30, 10, 5, 10, 5]. *)
Theorem flattenSequence_expands_loops :
  (forall t, flattenSequence t = flatten_spec t) /\
  flattenSequence [] = [] /\
  (forall s rest, flattenSequence (IStep s :: rest) = s :: flattenSequence rest) /\
  (forall l r cs lb rest,
      flattenSequence (ILoop l r cs lb :: rest) =
      concat (repeat (flattenSequence cs) (Z.to_nat r)) ++ flattenSequence rest) /\
  (forall t, length (flattenSequence t) = flat_length t) /\
  (forall l r cs lb rest,
      length (flattenSequence (ILoop l r cs lb :: rest)) =
      Z.to_nat r * length (flattenSequence cs) + length (flattenSequence rest)) /\
  (forall l r cs lb rest,
      (0 <= r)%Z ->
      Z.of_nat (length (flattenSequence (ILoop l r cs lb :: rest))) =
      (r * Z.of_nat (length (flattenSequence cs))
       + Z.of_nat (length (flattenSequence rest)))%Z) /\
  (forall l r cs lb rest,
      (r <= 0)%Z ->
      flattenSequence (ILoop l r cs lb :: rest) = flattenSequence rest) /\
  (forall l r lb rest,
      flattenSequence (ILoop l r [] lb :: rest) = flattenSequence rest) /\
  map time
      (flattenSequence
         [IStep (mkStep 30 None "s1");
          ILoop "l1" 2 [IStep (mkStep 10 None "s2"); IStep (mkStep 5 None "s3")]
                None])
  = [30; 10; 5; 10; 5]%Z.
Proof.
  assert (Hloop : forall l r cs lb rest,
             flattenSequence (ILoop l r cs lb :: rest) =
             concat (repeat (flattenSequence cs) (Z.to_nat r))
             ++ flattenSequence rest).
  { intros. rewrite !flattenSequence_spec, flatten_spec_loop. reflexivity. }
  assert (Hlen : forall l r cs lb rest,
             length (flattenSequence (ILoop l r cs lb :: rest)) =
             Z.to_nat r * length (flattenSequence cs)
             + length (flattenSequence rest)).
  { intros. now rewrite Hloop, length_app, length_concat_repeat. }
  split; [exact flattenSequence_spec|].
  split; [reflexivity|].
  split; [intros; now rewrite !flattenSequence_spec|].
  split; [exact Hloop|].
  split; [intros; now rewrite flattenSequence_spec, length_flatten_spec|].
  split; [exact Hlen|].
  split.
  { intros l r cs lb rest Hr. rewrite Hlen, Nat2Z.inj_add, Nat2Z.inj_mul.
    now rewrite Z2Nat.id. }
  split.
  { intros l r cs lb rest Hr. rewrite Hloop.
    replace (Z.to_nat r) with 0 by lia. reflexivity. }
  split; [|reflexivity].
  intros l r lb rest. rewrite Hloop.
  change (flattenSequence []) with (@nil SequenceStep).
  induction (Z.to_nat r) as [|n IH]; simpl; auto.
Qed.

(** A loop of 5 repetitions over one step, followed by a step: 5 * 1 + 1
    entries. *)
Lemma flattenSequence_expands_loops_witness :
  Z.of_nat (length (flattenSequence
                      [ILoop "l" 5 [IStep (mkStep 2 None "a")] None;
                       IStep (mkStep 7 None "b")]))
  = (5 * Z.of_nat (length (flattenSequence [IStep (mkStep 2 None "a")]))
     + Z.of_nat (length (flattenSequence [IStep (mkStep 7 None "b")])))%Z.
Proof.
  apply (proj1 (proj2 (proj2 (proj2 (proj2 (proj2 (proj2
           flattenSequence_expands_loops))))))).
  lia.
Defined.

(** ** Tree editor *)

Lemma parentExists_In t p : parentExists t p = true <-> In p (ids t).
Proof.
  induction t as [|s rest IH|l r cs lb rest IHcs IHrest] using tree_ind.
  - simpl. split; [discriminate|tauto].
  - rewrite parentExists_step, ids_step, orb_true_iff, String.eqb_eq, IH.
    simpl. tauto.
  - rewrite parentExists_loop, ids_loop, !orb_true_iff, String.eqb_eq,
      IHcs, IHrest. simpl. rewrite in_app_iff. tauto.
Qed.

Lemma parentExists_false t p : parentExists t p = false <-> ~ In p (ids t).
Proof.
  rewrite <- parentExists_In. destruct (parentExists t p); split; congruence.
Qed.

Lemma loop_ids_incl t p : In p (loop_ids t) -> In p (ids t).
Proof.
  induction t as [|s rest IH|l r cs lb rest IHcs IHrest] using tree_ind.
  - auto.
  - rewrite loop_ids_step, ids_step. simpl; auto.
  - rewrite loop_ids_loop, ids_loop. simpl. rewrite !in_app_iff. tauto.
Qed.

Lemma ids_under_incl a t p : In p (ids_under a t) -> In p (ids t).
Proof.
  induction t as [|s rest IH|l r cs lb rest IHcs IHrest] using tree_ind.
  - auto.
  - rewrite ids_under_step, ids_step. simpl; auto.
  - rewrite ids_under_loop, ids_loop. simpl. rewrite !in_app_iff.
    destruct (String.eqb l a); tauto.
Qed.

(** Without a loop named [p], [updateItems] rebuilds the same tree: the
    unit is not inserted anywhere. *)
Lemma updateItems_no_loop p u t :
  ~ In p (loop_ids t) -> updateItems p u t = t.
Proof.
  induction t as [|s rest IH|l r cs lb rest IHcs IHrest] using tree_ind.
  - reflexivity.
  - rewrite loop_ids_step, updateItems_step. intros H. now rewrite IH.
  - rewrite loop_ids_loop, updateItems_loop. simpl. rewrite in_app_iff.
    intros H. destruct (String.eqb_spec l p) as [->|Hne]; [tauto|].
    rewrite IHcs, IHrest by tauto. reflexivity.
Qed.

Lemma removeFromItems_absent rid t :
  ~ In rid (ids t) -> removeFromItems rid t = t.
Proof.
  induction t as [|s rest IH|l r cs lb rest IHcs IHrest] using tree_ind.
  - reflexivity.
  - rewrite ids_step, removeFromItems_step. simpl. intros H.
    destruct (String.eqb_spec (id s) rid); [tauto|]. now rewrite IH by tauto.
  - rewrite ids_loop, removeFromItems_loop. simpl. rewrite in_app_iff.
    intros H. destruct (String.eqb_spec l rid); [tauto|].
    now rewrite IHcs, IHrest by tauto.
Qed.

Lemma ids_removeFromItems_incl rid t x :
  In x (ids (removeFromItems rid t)) -> In x (ids t).
Proof.
  induction t as [|s rest IH|l r cs lb rest IHcs IHrest] using tree_ind.
  - auto.
  - rewrite ids_step, removeFromItems_step.
    destruct (String.eqb (id s) rid); [|rewrite ids_step]; simpl; tauto.
  - rewrite ids_loop, removeFromItems_loop.
    destruct (String.eqb l rid); [|rewrite ids_loop]; simpl;
      rewrite ?in_app_iff; tauto.
Qed.

Lemma ids_removeFromItems_removed rid t :
  ~ In rid (ids (removeFromItems rid t)).
Proof.
  induction t as [|s rest IH|l r cs lb rest IHcs IHrest] using tree_ind.
  - auto.
  - rewrite removeFromItems_step.
    destruct (String.eqb_spec (id s) rid); [assumption|].
    rewrite ids_step. simpl. tauto.
  - rewrite removeFromItems_loop.
    destruct (String.eqb_spec l rid); [assumption|].
    rewrite ids_loop. simpl. rewrite in_app_iff. tauto.
Qed.

Lemma removeFromItems_idempotent rid t :
  removeFromItems rid (removeFromItems rid t) = removeFromItems rid t.
Proof. apply removeFromItems_absent, ids_removeFromItems_removed. Qed.

(** A unit that is neither the removed one nor below it stays in the tree. *)
Lemma ids_removeFromItems_kept rid t p :
  In p (ids t) -> p <> rid -> ~ In p (ids_under rid t) ->
  In p (ids (removeFromItems rid t)).
Proof.
  intros Hin Hne. revert Hin.
  induction t as [|s rest IH|l r cs lb rest IHcs IHrest] using tree_ind.
  - auto.
  - rewrite ids_step, ids_under_step, removeFromItems_step. simpl.
    intros [Heq|Hin] Hu.
    + destruct (String.eqb_spec (id s) rid); [congruence|].
      rewrite ids_step. now left.
    + destruct (String.eqb (id s) rid); [|rewrite ids_step; right]; auto.
  - rewrite ids_loop, ids_under_loop, removeFromItems_loop. simpl.
    rewrite !in_app_iff. intros Hin Hu.
    destruct (String.eqb_spec l rid) as [->|Hl].
    + destruct Hin as [Heq|[Hin|Hin]]; [congruence|tauto|tauto].
    + rewrite ids_loop. simpl. rewrite in_app_iff. tauto.
Qed.

(** With unique ids, a unit below the removed one is gone after the
    removal. *)
Lemma ids_removeFromItems_under rid t p :
  NoDup (ids t) -> In p (ids_under rid t) ->
  ~ In p (ids (removeFromItems rid t)).
Proof.
  induction t as [|s rest IH|l r cs lb rest IHcs IHrest] using tree_ind.
  - auto.
  - rewrite ids_step, ids_under_step, removeFromItems_step.
    intros Hnd Hu. inversion Hnd as [|? ? Hnotin Hnd']; subst.
    destruct (String.eqb (id s) rid); [auto|].
    rewrite ids_step. simpl. intros [Heq|Hin]; [|now apply IH].
    subst p. apply Hnotin. now apply ids_under_incl with rid.
  - rewrite ids_loop, ids_under_loop, removeFromItems_loop.
    intros Hnd Hu. inversion Hnd as [|? ? Hnotin Hnd']; subst.
    rewrite in_app_iff in Hnotin.
    pose proof (NoDup_app_remove_l _ _ Hnd') as Hrest.
    pose proof (NoDup_app_remove_r _ _ Hnd') as Hcs.
    assert (Hdisj : forall x, In x (ids cs) -> ~ In x (ids rest)).
    { intros x Hx Hy. clear - Hnd' Hx Hy.
      induction (ids cs) as [|c l' IHl]; [contradiction|].
      simpl in Hnd'. inversion Hnd' as [|? ? Hn Hnd'']; subst.
      destruct Hx as [->|Hx]; [apply Hn, in_or_app; now right|auto]. }
    rewrite in_app_iff in Hu.
    destruct (String.eqb_spec l rid) as [->|Hl].
    + destruct Hu as [Hu|Hu]; [|auto].
      intros Hin. apply ids_removeFromItems_incl in Hin. now apply (Hdisj p).
    + rewrite ids_loop. simpl. rewrite in_app_iff.
      intros [Heq|[Hin|Hin]].
      * subst p. destruct Hu as [Hu|Hu]; apply ids_under_incl in Hu; tauto.
      * destruct Hu as [Hu|Hu]; [now apply IHcs|].
        apply ids_under_incl in Hu. apply ids_removeFromItems_incl in Hin.
        now apply (Hdisj p).
      * destruct Hu as [Hu|Hu]; [|now apply IHrest].
        apply ids_under_incl in Hu. apply ids_removeFromItems_incl in Hin.
        now apply (Hdisj p).
Qed.

(** ** Handlers: what each one does to the state *)

Lemma removeItem_items rid s :
  items (exec (removeItem rid) s) = removeFromItems rid (items s).
Proof.
  unfold removeItem, exec, bind, render, when, setItems, setCurrentParentId, ret.
  simpl. now destruct (_ || _).
Qed.

Lemma removeItem_effects rid s :
  effects (exec (removeItem rid) s) = effects s.
Proof.
  unfold removeItem, exec, bind, render, when, setItems, setCurrentParentId, ret.
  simpl. now destruct (_ || _).
Qed.

Lemma removeItem_currentParentId rid s :
  currentParentId (exec (removeItem rid) s) =
  if match currentParentId s with
     | Some p => String.eqb p rid
     | None => false
     end || parentMissing (removeFromItems rid (items s)) (currentParentId s)
  then None else currentParentId s.
Proof.
  unfold removeItem, exec, bind, render, when, setItems, setCurrentParentId, ret.
  simpl. now destruct (_ || _).
Qed.

Lemma parentMissing_true t p :
  parentMissing t (Some p) = true <-> p <> "" /\ ~ In p (ids t).
Proof.
  unfold parentMissing, truthy.
  rewrite andb_true_iff, !negb_true_iff, parentExists_false.
  destruct (String.eqb_spec p ""); intuition congruence.
Qed.

Lemma parentMissing_false t p :
  parentMissing t (Some p) = false <-> p = "" \/ In p (ids t).
Proof.
  unfold parentMissing, truthy.
  rewrite andb_false_iff, !negb_false_iff, parentExists_In, String.eqb_eq.
  tauto.
Qed.

Lemma removeItem_exec rid s :
  exec (removeItem rid) s =
  mkApp (minutes s) (seconds s) (isTimerPlaying s) (currentStepIndex s)
        (resetKey s) (removeFromItems rid (items s)) (flattenedSequence s)
        (isLoopModalVisible s) (loopRepetitions s)
        (selection_after_remove rid s) (effects s).
Proof.
  unfold selection_after_remove, removeItem, exec, bind, render, when,
    setItems, setCurrentParentId, ret.
  destruct s as [mi se pl ix rk its fl lm lr cur ef].
  cbn -[removeFromItems parentMissing String.eqb].
  now destruct (_ || _).
Qed.

Lemma removeItem_idempotent rid s :
  exec (removeItem rid) (exec (removeItem rid) s) = exec (removeItem rid) s.
Proof.
  rewrite (removeItem_exec rid (exec _ s)), (removeItem_exec rid s).
  cbn -[removeFromItems parentMissing String.eqb selection_after_remove].
  rewrite removeFromItems_idempotent. f_equal.
  unfold selection_after_remove at 1.
  cbn -[removeFromItems parentMissing String.eqb selection_after_remove].
  rewrite removeFromItems_idempotent.
  unfold selection_after_remove.
  destruct (currentParentId s) as [p|]; [|reflexivity].
  destruct (String.eqb p rid) eqn:Hp; [reflexivity|].
  cbn -[removeFromItems parentMissing String.eqb].
  destruct (parentMissing (removeFromItems rid (items s)) (Some p)) eqn:Hm;
    [reflexivity|].
  now rewrite Hp, Hm.
Qed.

(** C7. Removing an id that no unit of the tree carries returns the same
    tree, with no notice or other effect; hence removing the same id twice
    gives the same tree, and the same state, as removing it once. *)
Theorem removeItem_absent_is_noop_and_idempotent :
  (forall t rid, ~ In rid (ids t) -> removeFromItems rid t = t) /\
  (forall s rid, ~ In rid (ids (items s)) ->
     items (exec (removeItem rid) s) = items s /\
     effects (exec (removeItem rid) s) = effects s) /\
  (forall t rid,
     removeFromItems rid (removeFromItems rid t) = removeFromItems rid t) /\
  (forall s rid,
     exec (removeItem rid) (exec (removeItem rid) s) = exec (removeItem rid) s).
Proof.
  split; [intros; now apply removeFromItems_absent|].
  split.
  { intros s rid H.
    now rewrite removeItem_items, removeItem_effects, removeFromItems_absent. }
  split; [intros; apply removeFromItems_idempotent|].
  intros; apply removeItem_idempotent.
Qed.

Lemma removeItem_absent_is_noop_and_idempotent_witness :
  removeFromItems "9" [ILoop "1" 2 [IStep (mkStep 10 None "2")] None]
  = [ILoop "1" 2 [IStep (mkStep 10 None "2")] None].
Proof.
  apply (proj1 removeItem_absent_is_noop_and_idempotent).
  simpl. intros [H|[H|[]]]; discriminate H.
Defined.

(** C8 (amended). After [removeItem(rid)] the selected parent is reset to
    none when it is [rid] itself; when, in a tree with unique ids, it lies
    below the unit [rid]; and also whenever it names no unit of the tree at
    all, whatever is removed.  It is left unchanged when it names a unit of
    the tree that is neither [rid] nor below [rid].  (Ids are non-empty
    strings in the two reset cases that go through [parentExists], as the
    ids made by [Date.now().toString()] are.) *)
Theorem removeItem_selection :
  forall s rid,
    let sel := currentParentId (exec (removeItem rid) s) in
    (currentParentId s = Some rid -> sel = None) /\
    (forall p, currentParentId s = Some p -> p <> "" ->
               NoDup (ids (items s)) -> In p (ids_under rid (items s)) ->
               sel = None) /\
    (forall p, currentParentId s = Some p -> p <> "" ->
               ~ In p (ids (items s)) -> sel = None) /\
    (forall p, currentParentId s = Some p -> p <> rid ->
               In p (ids (items s)) -> ~ In p (ids_under rid (items s)) ->
               sel = Some p) /\
    (currentParentId s = None -> sel = None).
Proof.
  intros s rid sel. subst sel. rewrite removeItem_currentParentId.
  repeat split.
  - intros ->. now rewrite String.eqb_refl.
  - intros p -> Hne Hnd Hu.
    assert (Hm : parentMissing (removeFromItems rid (items s)) (Some p) = true).
    { apply parentMissing_true. split; [assumption|].
      now apply ids_removeFromItems_under. }
    rewrite Hm, orb_true_r. reflexivity.
  - intros p -> Hne Hnot.
    assert (Hm : parentMissing (removeFromItems rid (items s)) (Some p) = true).
    { apply parentMissing_true. split; [assumption|].
      intros Hin. now apply ids_removeFromItems_incl in Hin. }
    rewrite Hm, orb_true_r. reflexivity.
  - intros p -> Hne Hin Hu.
    assert (Hm : parentMissing (removeFromItems rid (items s)) (Some p) = false).
    { apply parentMissing_false. right. now apply ids_removeFromItems_kept. }
    rewrite Hm. destruct (String.eqb_spec p rid); [contradiction|reflexivity].
  - intros ->. reflexivity.
Qed.

Lemma removeItem_selection_witness :
  currentParentId
    (exec (removeItem "1")
          (mkApp "" "" false 0 0
                 [ILoop "1" 2 [ILoop "2" 3 [] None] None] [] false "1"
                 (Some "2") []))
  = None.
Proof.
  apply (proj1 (proj2 (removeItem_selection _ "1")) "2").
  - reflexivity.
  - discriminate.
  - simpl. repeat constructor; simpl; intuition discriminate.
  - simpl. now left.
Defined.

(** C8, as stated, fails: the selected id ["1"] is neither the removed id
    ["5"] nor below it, and the removal still resets the selection. *)
Lemma removeItem_resets_stale_selection :
  let s := run stale_selection_trace initialApp in
  allowed stale_selection_trace initialApp = true /\
  currentParentId s = Some "1" /\
  "1" <> "5" /\
  ~ In "1" (ids_under "5" (items s)) /\
  currentParentId (exec (removeItem "5") s) = None /\
  currentParentId (exec (removeItem "5") s) <> currentParentId s.
Proof.
  cbv zeta. repeat split; try reflexivity; try discriminate.
  simpl. tauto.
Qed.

(** *** Insertion *)

Lemma insertUnit_items u s :
  items (exec (insertUnit u) s) =
  match currentParentId s with
  | None => items s ++ [u]
  | Some p =>
      if String.eqb p "" then items s ++ [u]
      else if parentExists (items s) p then updateItems p u (items s)
           else items s ++ [u]
  end.
Proof.
  unfold insertUnit, exec, bind, render, addStepToParent, parentMissing, truthy.
  destruct (currentParentId s) as [p|]; [|reflexivity].
  destruct (String.eqb p ""); [reflexivity|].
  now destruct (parentExists (items s) p).
Qed.

(** The part of the fallback that works: with no selection, or a selected
    id that names no unit of the tree, the unit is appended at top level. *)
Lemma insertUnit_appends_when_parent_absent u s :
  (currentParentId s = None \/
   exists p, currentParentId s = Some p /\ ~ In p (ids (items s))) ->
  items (exec (insertUnit u) s) = items s ++ [u].
Proof.
  rewrite insertUnit_items.
  intros [->|(p & -> & Hnot)]; [reflexivity|].
  apply parentExists_false in Hnot. rewrite Hnot.
  now destruct (String.eqb p "").
Qed.

(** The case the guard misses: the selected id names a unit, but no loop;
    [parentExists] answers [true], [updateItems] finds no loop to extend,
    and the tree comes back as it was. *)
Lemma insertUnit_dropped_when_parent_is_step u s p :
  currentParentId s = Some p -> p <> "" ->
  In p (ids (items s)) -> ~ In p (loop_ids (items s)) ->
  items (exec (insertUnit u) s) = items s.
Proof.
  intros Hcur Hne Hin Hloop. rewrite insertUnit_items, Hcur.
  destruct (String.eqb_spec p ""); [contradiction|].
  apply parentExists_In in Hin. rewrite Hin.
  now apply updateItems_no_loop.
Qed.

(** C1, at the failing input: the selected parent id ["7"] names a step
    and no loop; inserting a loop (as [addLoop] does) leaves the tree
    unchanged instead of appending the unit at top level. *)
Theorem insertUnit_step_parent_drops_unit :
  let s := run step_parent_trace initialApp in
  let u := ILoop "8" 3 [] None in
  allowed step_parent_trace initialApp = true /\
  items s = [IStep (mkStep 10 None "7")] /\
  currentParentId s = Some "7" /\
  ~ In "7" (loop_ids (items s)) /\
  items (exec (insertUnit u) s) = items s /\
  items (exec (insertUnit u) s) <> items s ++ [u] /\
  items (exec (addLoop "8" 3) s) = items s.
Proof.
  cbv zeta. repeat split; try reflexivity; try discriminate.
  simpl. tauto.
Qed.

(** *** Step creation *)

Lemma addStep_nonpositive_is_noop now s :
  (totalTime s <= 0)%Z -> addStep now s = (tt, s).
Proof.
  intros H. unfold addStep, bind, render, ret.
  destruct (Z.gtb_spec (totalTime s) 0); [lia|reflexivity].
Qed.

Lemma addStep_positive_inserts now s :
  (totalTime s > 0)%Z ->
  let newStep := IStep {| time := totalTime s; label := None; id := now |} in
  items (exec (addStep now) s) = items (exec (insertUnit newStep) s) /\
  minutes (exec (addStep now) s) = "" /\
  seconds (exec (addStep now) s) = "" /\
  effects (exec (addStep now) s) = effects s.
Proof.
  intros H newStep. unfold addStep, exec, bind, render.
  destruct (Z.gtb_spec (totalTime s) 0); [|lia].
  fold newStep.
  unfold insertUnit, exec, bind, render, addStepToParent.
  destruct (parentMissing (items s) (currentParentId s)); [now simpl|].
  destruct (currentParentId s) as [p|]; [|now simpl].
  destruct (negb (truthy (Some p))); now simpl.
Qed.

(** With no selection, or a selected id that names no unit, a positive
    total appends a step of exactly that duration at top level. *)
Lemma addStep_positive_appends now s :
  (totalTime s > 0)%Z ->
  (currentParentId s = None \/
   exists p, currentParentId s = Some p /\ ~ In p (ids (items s))) ->
  items (exec (addStep now) s) =
  items s ++ [IStep {| time := totalTime s; label := None; id := now |}].
Proof.
  intros Hpos Hsel.
  destruct (addStep_positive_inserts now s Hpos) as (-> & _).
  now apply insertUnit_appends_when_parent_absent.
Qed.

Example addStep_zero_zero now its :
  exec (addStep now)
       (mkApp "0" "0" false 0 0 its [] false "1" None []) =
  mkApp "0" "0" false 0 0 its [] false "1" None [].
Proof. reflexivity. Qed.

(** C9, at the failing input: minutes [""] and seconds ["5"] give a total
    of 5 > 0, the selected parent id names a step, and [addStep] leaves
    the tree unchanged: no step of duration 5 is added. *)
Theorem addStep_positive_total_step_parent_adds_nothing :
  let s := run (step_parent_trace ++ [ChangeSeconds "5"]) initialApp in
  allowed (step_parent_trace ++ [ChangeSeconds "5"]) initialApp = true /\
  totalTime s = 5%Z /\
  items s = [IStep (mkStep 10 None "7")] /\
  currentParentId s = Some "7" /\
  items (exec (addStep "9") s) = items s /\
  flattenSequence (items (exec (addStep "9") s)) = [mkStep 10 None "7"].
Proof. cbv zeta. repeat split; reflexivity. Qed.

(** ** Playback *)

Lemma startSequence_nonempty s :
  flattenedSequence s <> [] ->
  exec startSequence s =
  mkApp (minutes s) (seconds s) true 0 (resetKey s) (items s)
        (flattenedSequence s) (isLoopModalVisible s) (loopRepetitions s)
        (currentParentId s) (effects s ++ [PlayBeep]).
Proof.
  intros H. unfold startSequence, exec, bind, render.
  destruct (flattenedSequence s) eqn:E; [contradiction|].
  simpl. now rewrite E.
Qed.

Lemma resetTimer_exec s :
  exec resetTimer s =
  mkApp (minutes s) (seconds s) false 0 (resetKey s + 1) (items s)
        (flattenedSequence s) (isLoopModalVisible s) (loopRepetitions s)
        (currentParentId s) (effects s).
Proof. reflexivity. Qed.

Lemma handleComplete_advance s :
  (Z.of_nat (currentStepIndex s)
   < Z.of_nat (length (flattenedSequence s)) - 1)%Z ->
  handleComplete s =
  ({| shouldRepeat := true; delay := Some 0%Z |},
   mkApp (minutes s) (seconds s) (isTimerPlaying s) (currentStepIndex s + 1)
         (resetKey s) (items s) (flattenedSequence s) (isLoopModalVisible s)
         (loopRepetitions s) (currentParentId s) (effects s ++ [PlayBeep])).
Proof.
  intros H. unfold handleComplete, bind, render.
  destruct (Z.ltb_spec (Z.of_nat (currentStepIndex s))
                       (Z.of_nat (length (flattenedSequence s)) - 1)); [|lia].
  reflexivity.
Qed.

Lemma handleComplete_finish s :
  (Z.of_nat (length (flattenedSequence s)) - 1
   <= Z.of_nat (currentStepIndex s))%Z ->
  handleComplete s =
  ({| shouldRepeat := false; delay := None |}, exec resetTimer s).
Proof.
  intros H. unfold handleComplete, bind, render.
  destruct (Z.ltb_spec (Z.of_nat (currentStepIndex s))
                       (Z.of_nat (length (flattenedSequence s)) - 1)); [lia|].
  reflexivity.
Qed.

(** C2 (amended). Pressing start while paused at any index, with a
    non-empty flattened list, enters Running with the index set to 0 and
    triggers the audio cue once, exactly as a first start does. *)
Theorem startSequence_while_paused_restarts :
  forall s,
    isTimerPlaying s = false ->
    flattenedSequence s <> [] ->
    let s' := exec startSequence s in
    isTimerPlaying s' = true /\
    currentStepIndex s' = 0 /\
    effects s' = effects s ++ [PlayBeep].
Proof.
  intros s _ Hne s'. subst s'. rewrite startSequence_nonempty by assumption.
  repeat split.
Qed.

Lemma startSequence_while_paused_restarts_witness :
  let s := run paused_at_1_trace initialApp in
  isTimerPlaying (exec startSequence s) = true /\
  currentStepIndex (exec startSequence s) = 0 /\
  effects (exec startSequence s) = effects s ++ [PlayBeep].
Proof.
  apply (startSequence_while_paused_restarts
           (run paused_at_1_trace initialApp)).
  - vm_compute. reflexivity.
  - vm_compute. discriminate.
Defined.

(** C2, as stated, fails: from Paused at index 1 with two flattened steps,
    start leaves the index at 0, not 1, and emits one more cue. *)
Lemma startSequence_while_paused_loses_index :
  let s := run paused_at_1_trace initialApp in
  allowed paused_at_1_trace initialApp = true /\
  isTimerPlaying s = false /\
  currentStepIndex s = 1 /\
  length (flattenedSequence s) = 2 /\
  currentStepIndex (exec startSequence s) = 0 /\
  currentStepIndex (exec startSequence s) <> currentStepIndex s /\
  effects (exec startSequence s) = effects s ++ [PlayBeep] /\
  effects (exec startSequence s) <> effects s.
Proof. vm_compute. repeat split; discriminate. Qed.

(** C4. While Running on a flattened list of length [L > 0]: when the index
    [i] is below [L - 1], step-complete moves the index to [i + 1], stays
    Running, triggers the audio cue and tells the countdown to repeat (with
    no delay), the widget showing the new step under a new key; when
    [i = L - 1], the index becomes 0 and Running becomes false. *)
Theorem handleComplete_advances_then_finishes :
  forall s,
    isTimerPlaying s = true ->
    0 < length (flattenedSequence s) ->
    let s' := exec handleComplete s in
    (currentStepIndex s < length (flattenedSequence s) - 1 ->
     currentStepIndex s' = currentStepIndex s + 1 /\
     isTimerPlaying s' = true /\
     effects s' = effects s ++ [PlayBeep] /\
     result handleComplete s = {| shouldRepeat := true; delay := Some 0%Z |} /\
     timerKey s' = (resetKey s, currentStepIndex s + 1) /\
     flattenedSequence s' = flattenedSequence s) /\
    (currentStepIndex s = length (flattenedSequence s) - 1 ->
     currentStepIndex s' = 0 /\
     isTimerPlaying s' = false /\
     shouldRepeat (result handleComplete s) = false /\
     effects s' = effects s).
Proof.
  intros s Hrun Hlen s'. subst s'. unfold exec, result. split; intros Hi.
  - rewrite handleComplete_advance by lia. simpl. now rewrite Hrun.
  - rewrite handleComplete_finish by lia. simpl. repeat split.
Qed.

Lemma handleComplete_advances_then_finishes_witness :
  let s := run running_trace initialApp in
  let s2 := run (running_trace ++ [TimerComplete; TimerComplete]) initialApp in
  (length (flattenedSequence s) = 3 /\ currentStepIndex s = 0 /\
   currentStepIndex (exec handleComplete s) = 1 /\
   isTimerPlaying (exec handleComplete s) = true) /\
  (currentStepIndex s2 = 2 /\
   currentStepIndex (exec handleComplete s2) = 0 /\
   isTimerPlaying (exec handleComplete s2) = false).
Proof.
  split.
  - split; [vm_compute; reflexivity|]. split; [vm_compute; reflexivity|].
    destruct (handleComplete_advances_then_finishes
                (run running_trace initialApp)) as [Hadv _].
    + vm_compute. reflexivity.
    + vm_compute. lia.
    + destruct Hadv as (H1 & H2 & _); [vm_compute; lia|]. split; assumption.
  - split; [vm_compute; reflexivity|].
    destruct (handleComplete_advances_then_finishes
                (run (running_trace ++ [TimerComplete; TimerComplete])
                     initialApp)) as [_ Hfin].
    + vm_compute. reflexivity.
    + vm_compute. lia.
    + destruct Hfin as (H1 & H2 & _); [vm_compute; reflexivity|].
      split; assumption.
Defined.

(** C10. When step-complete fires on the last step, the state is the one
    an explicit reset produces: index 0, not Running, and the reset token
    of the countdown widget incremented by one. *)
Theorem handleComplete_on_last_step_is_reset :
  forall s,
    0 < length (flattenedSequence s) ->
    currentStepIndex s = length (flattenedSequence s) - 1 ->
    exec handleComplete s = exec resetTimer s /\
    currentStepIndex (exec handleComplete s) = 0 /\
    isTimerPlaying (exec handleComplete s) = false /\
    resetKey (exec handleComplete s) = resetKey s + 1 /\
    resetKey (exec resetTimer s) = resetKey s + 1.
Proof.
  intros s Hlen Hi. unfold exec at 1 3 4 5.
  rewrite handleComplete_finish by lia. simpl. repeat split.
Qed.

Lemma handleComplete_on_last_step_is_reset_witness :
  let s := run (running_trace ++ [TimerComplete; TimerComplete]) initialApp in
  exec handleComplete s = exec resetTimer s /\
  currentStepIndex (exec handleComplete s) = 0 /\
  isTimerPlaying (exec handleComplete s) = false /\
  resetKey (exec handleComplete s) = resetKey s + 1 /\
  resetKey (exec resetTimer s) = resetKey s + 1.
Proof.
  apply (handleComplete_on_last_step_is_reset
           (run (running_trace ++ [TimerComplete; TimerComplete]) initialApp)).
  - vm_compute. lia.
  - vm_compute. reflexivity.
Defined.

(** ** The index invariant *)

Lemma insertUnit_exec u s :
  exec (insertUnit u) s =
  mkApp (minutes s) (seconds s) (isTimerPlaying s) (currentStepIndex s)
        (resetKey s) (inserted u s) (flattenedSequence s)
        (isLoopModalVisible s) (loopRepetitions s) (currentParentId s)
        (effects s).
Proof.
  destruct s as [mi se pl ix rk its fl lm lr cur ef].
  unfold inserted, insertUnit, exec, bind, render, addStepToParent,
    parentMissing, truthy.
  cbn -[parentExists updateItems String.eqb].
  destruct cur as [p|]; [|reflexivity].
  destruct (String.eqb p ""); [reflexivity|].
  now destruct (parentExists its p).
Qed.

Lemma flat_length_app t1 t2 :
  flat_length (t1 ++ t2) = flat_length t1 + flat_length t2.
Proof. unfold flat_length. now rewrite map_app, list_sum_app. Qed.

Lemma flat_length_updateItems p u t :
  flat_length t <= flat_length (updateItems p u t).
Proof.
  induction t as [|s rest IH|l r cs lb rest IHcs IHrest] using tree_ind.
  - apply le_n.
  - rewrite updateItems_step, !flat_length_step. lia.
  - rewrite updateItems_loop. destruct (String.eqb l p).
    + rewrite !flat_length_loop, flat_length_app. nia.
    + rewrite !flat_length_loop. nia.
Qed.

Lemma flat_length_inserted u s :
  flat_length (items s) <= flat_length (inserted u s).
Proof.
  unfold inserted.
  destruct (currentParentId s) as [p|];
    [destruct (String.eqb p ""); [|destruct (parentExists (items s) p)]|];
    rewrite ?flat_length_app; try lia.
  apply flat_length_updateItems.
Qed.

Lemma length_flattenSequence t : length (flattenSequence t) = flat_length t.
Proof. now rewrite flattenSequence_spec, length_flatten_spec. Qed.

Lemma index_in_range_of_invariant s : playback_invariant s -> index_in_range s.
Proof. unfold playback_invariant, index_in_range. lia. Qed.

Lemma playback_invariant_initial : playback_invariant initialApp.
Proof. unfold playback_invariant. simpl. lia. Qed.

Lemma addStep_exec_positive now s :
  (totalTime s > 0)%Z ->
  exec (addStep now) s =
  mkApp "" "" (isTimerPlaying s) (currentStepIndex s) (resetKey s)
        (inserted (IStep {| time := totalTime s; label := None; id := now |}) s)
        (flattenedSequence s) (isLoopModalVisible s) (loopRepetitions s)
        (currentParentId s) (effects s).
Proof.
  intros H. unfold addStep, exec, bind, render.
  destruct (Z.gtb_spec (totalTime s) 0); [|lia].
  set (u := IStep _).
  pose proof (insertUnit_exec u s) as E. unfold exec in E.
  destruct (insertUnit u s) as [[] s1]. simpl in E. subst s1. reflexivity.
Qed.

Lemma addLoop_exec now r s :
  exec (addLoop now r) s =
  mkApp (minutes s) (seconds s) (isTimerPlaying s) (currentStepIndex s)
        (resetKey s) (inserted (ILoop now r [] None) s)
        (flattenedSequence s) false "1" (currentParentId s) (effects s).
Proof.
  unfold addLoop, exec, bind.
  set (u := ILoop _ _ _ _).
  pose proof (insertUnit_exec u s) as E. unfold exec in E.
  destruct (insertUnit u s) as [[] s1]. simpl in E. subst s1. reflexivity.
Qed.

Lemma addStep_preserves now s :
  playback_invariant s -> playback_invariant (exec (addStep now) s).
Proof.
  destruct (Z.le_gt_cases (totalTime s) 0) as [Hle|Hgt].
  - unfold exec. now rewrite addStep_nonpositive_is_noop.
  - rewrite addStep_exec_positive by lia.
    unfold playback_invariant. cbn -[inserted flat_length].
    pose proof (flat_length_inserted
                  (IStep {| time := totalTime s; label := None; id := now |}) s).
    lia.
Qed.

Lemma addLoop_preserves now r s :
  playback_invariant s -> playback_invariant (exec (addLoop now r) s).
Proof.
  rewrite addLoop_exec. unfold playback_invariant.
  cbn -[inserted flat_length].
  pose proof (flat_length_inserted (ILoop now r [] None) s). lia.
Qed.

Lemma handleComplete_preserves s :
  playback_invariant s -> playback_invariant (exec handleComplete s).
Proof.
  unfold playback_invariant. intros [Hlen Hidx]. unfold exec.
  destruct (Z.lt_ge_cases (Z.of_nat (currentStepIndex s))
                          (Z.of_nat (length (flattenedSequence s)) - 1)).
  - rewrite handleComplete_advance by assumption. simpl. lia.
  - rewrite handleComplete_finish by lia. simpl. lia.
Qed.

Lemma startSequence_preserves s :
  playback_invariant s -> playback_invariant (exec startSequence s).
Proof.
  unfold playback_invariant, startSequence, exec, bind, render.
  intros [Hlen Hidx].
  destruct (length (flattenedSequence s) =? 0)%nat; simpl; lia.
Qed.

Lemma step_preserves e s :
  replaces_tree e = false ->
  playback_invariant s -> playback_invariant (step e s).
Proof.
  destruct e; simpl; try discriminate; intros _ H;
    try (exact H);
    try (now apply addStep_preserves);
    try (now apply addLoop_preserves);
    try (now apply handleComplete_preserves);
    try (now apply startSequence_preserves).
  - (* openLoopModal *)
    unfold playback_invariant, openLoopModal, exec, bind, render, when in *.
    destruct (parentMissing _ _); exact H.
  - (* flattenEffect *)
    unfold playback_invariant, flattenEffect, exec, bind, render in *.
    cbn -[flattenSequence flat_length]. rewrite length_flattenSequence. lia.
  - (* resetTimer *)
    unfold playback_invariant in *. rewrite resetTimer_exec. simpl. lia.
Qed.

Lemma run_preserves tr :
  forallb (fun e => negb (replaces_tree e)) tr = true ->
  forall s, playback_invariant s -> playback_invariant (run tr s).
Proof.
  unfold run. induction tr as [|e tr IH]; simpl; [auto|].
  rewrite andb_true_iff, negb_true_iff. intros [He Htr] s Hs.
  apply IH; [assumption|]. now apply step_preserves.
Qed.

Lemma step_keeps_index_inside e s :
  replaces_tree e = true ->
  flattenedSequence (step e s) = flattenedSequence s /\
  currentStepIndex (step e s) = currentStepIndex s.
Proof.
  destruct e; try discriminate; intros _; cbn [step].
  - rewrite removeItem_exec. split; reflexivity.
  - split; reflexivity.
Qed.

Lemma index_safe_run tr :
  forall s,
    (currentStepIndex s = 0 \/
     currentStepIndex s < length (flattenedSequence s)) ->
    (length (flattenedSequence s) <= flat_length (items s) \/
     match tr with
     | [] => True
     | FlattenEffect :: _ =>
         currentStepIndex s = 0 \/
         currentStepIndex s < flat_length (items s)
     | _ => False
     end) ->
    index_safe tr s = true ->
    index_in_range (run tr s).
Proof.
  induction tr as [|e rest IH]; intros s Hidx Hlen Hsafe.
  - unfold run. cbn [fold_left]. unfold index_in_range. lia.
  - change (run (e :: rest) s) with (run rest (step e s)).
    cbn [index_safe] in Hsafe. apply andb_true_iff in Hsafe.
    destruct Hsafe as [He Hrest].
    destruct Hlen as [Hlen|Hpending].
    + destruct (replaces_tree e) eqn:Er.
      * destruct (step_keeps_index_inside e s Er) as [Hfl Hix].
        apply IH; [rewrite Hfl, Hix; exact Hidx| |exact Hrest].
        right. unfold after_replacement_ok in He.
        destruct rest as [|e2 rest']; [exact I|].
        destruct e2; try discriminate He.
        apply orb_true_iff in He. rewrite <- length_flattenSequence.
        destruct He as [He|He];
          [left; now apply Nat.eqb_eq|right; now apply Nat.ltb_lt].
      * destruct (step_preserves e s Er (conj Hlen Hidx)) as [Hl Hi].
        apply IH; [exact Hi|left; exact Hl|exact Hrest].
    + destruct e; try contradiction.
      cbn [step]. unfold flattenEffect, exec, bind, render.
      cbn [snd setFlattenedSequence].
      apply IH; cbn [currentStepIndex flattenedSequence items];
        [|left|exact Hrest]; rewrite length_flattenSequence; [exact Hpending|].
      apply le_n.
Qed.

(** A trace without [removeItem] and without loads satisfies
    [index_safe]; the trace of the failing scenario does not. *)
Lemma index_safe_without_replacement tr :
  forallb (fun e => negb (replaces_tree e)) tr = true ->
  forall s, index_safe tr s = true.
Proof.
  induction tr as [|e rest IH]; cbn [forallb index_safe]; [reflexivity|].
  rewrite andb_true_iff, negb_true_iff. intros [He Hrest] s.
  now rewrite He, IH.
Qed.

Example index_safe_rejects_removal_trace :
  index_safe removal_trace initialApp = false.
Proof. vm_compute. reflexivity. Qed.

(** C3 (amended). In every state reached from the initial one by editor
    operations ([addStep], [addLoop], [removeItem]), loads, flattening
    recomputation and playback events (start, pause, reset,
    step-complete), in any order, provided that every [removeItem] and
    every load is followed next by the flattening recomputation and leaves
    the current index at 0 or below the length of the flattening of the
    new tree: the index is below the length of the flattened list when
    that list is not empty, and is 0 when it is empty. *)
Theorem index_in_range_when_removals_keep_index_inside :
  forall tr,
    index_safe tr initialApp = true ->
    index_in_range (run tr initialApp).
Proof.
  intros tr Htr. apply index_safe_run; [now left|left; apply le_n|exact Htr].
Qed.

Lemma index_in_range_when_removals_keep_index_inside_witness :
  index_in_range (run safe_removal_trace initialApp).
Proof.
  apply (index_in_range_when_removals_keep_index_inside safe_removal_trace).
  vm_compute. reflexivity.
Defined.

(** C3, as stated, fails: after the removal the flattened list has one
    entry and the index is still 1; the countdown runs on the fallback
    duration. *)
Lemma removeItem_leaves_index_out_of_range :
  let s := run removal_trace initialApp in
  allowed removal_trace initialApp = true /\
  length (flattenedSequence s) = 1 /\
  currentStepIndex s = 1 /\
  isTimerPlaying s = true /\
  activeDuration s = 10%Z /\
  ~ index_in_range s.
Proof.
  vm_compute. repeat split. intros [H _]. specialize (H (le_n 1)).
  inversion H as [|? H']. inversion H'.
Qed.

(** ** Loading the working sequence *)

Module PersistenceFacts.
Import Persistence.

Lemma lookup_app_None key props k v :
  lookup key props = None -> k <> key ->
  lookup key (props ++ [(k, v)]) = None.
Proof.
  intros H Hne. induction props as [|[k' v'] rest IH]; simpl in *.
  - destruct (String.eqb_spec k key); [contradiction|reflexivity].
  - destruct (String.eqb k' key); [discriminate|auto].
Qed.

Lemma assign_new key v props :
  lookup key props = None -> assign key v props = props ++ [(key, v)].
Proof.
  induction props as [|[k w] rest IH]; simpl; [reflexivity|].
  destruct (String.eqb k key); [discriminate|].
  intros H. now rewrite IH.
Qed.

Lemma spread_fresh props :
  NoDup (map fst props) ->
  forall acc,
    (forall k, In k (map fst props) -> lookup k acc = None) ->
    fold_left (fun o kv => assign (fst kv) (snd kv) o) props acc
    = acc ++ props.
Proof.
  induction props as [|[k v] rest IH]; simpl; intros Hnd acc Hacc.
  - now rewrite app_nil_r.
  - inversion Hnd as [|? ? Hnotin Hnd']; subst.
    rewrite assign_new by (apply Hacc; now left).
    rewrite IH; [now rewrite <- app_assoc|assumption|].
    intros k' Hk'. apply lookup_app_None; [apply Hacc; now right|].
    intros ->. contradiction.
Qed.

(** A record with no [type] of its own gets the tag in front of its
    fields. *)
Lemma tagStep_untyped props :
  NoDup (map fst props) -> lookup "type" props = None ->
  tagStep (JObject props) = JObject (("type", JString "step") :: props).
Proof.
  intros Hnd Hty. unfold tagStep. simpl own_props.
  rewrite spread_fresh; [reflexivity|assumption|].
  intros k Hk. cbn -[String.eqb].
  destruct (String.eqb_spec "type" k) as [<-|]; [|reflexivity].
  exfalso. clear Hnd.
  induction props as [|[k' v'] rest IH]; cbn -[String.eqb] in *.
  - contradiction.
  - destruct (String.eqb_spec k' "type") as [|Hne]; [discriminate|].
    destruct Hk as [Hk|Hk]; [congruence|auto].
Qed.

(** A record that carries a [type] keeps its own: the spread comes after
    the tag. *)
Example tagStep_keeps_own_type :
  tagStep (JObject [("type", JString "loop"); ("id", JString "b")])
  = JObject [("type", JString "loop"); ("id", JString "b")].
Proof. reflexivity. Qed.

(** C6 (amended). [loadSequence] stores the payload's [items] as it is
    whenever that is an array; otherwise, when the payload is a bare
    array, it stores its entries with each record's fields copied after
    a [type: "step"] tag, so that [[{time:20, id:"a"}]] becomes
    [[{type:"step", time:20, id:"a"}]].  A failed read, text that is not
    JSON, and every parsed payload that is neither a bare array nor has
    an array [items] give the load-failure notice and leave the tree
    unchanged. *)
Theorem loadSequence_migrates_bare_arrays_only :
  forall s,
    (forall props its,
        lookup "items" props = Some (JArray its) ->
        loadSequence (Parsed (JObject props)) s = setRawItems its s) /\
    (forall steps,
        loadSequence (Parsed (JArray steps)) s
        = setRawItems (map tagStep steps) s) /\
    (forall props,
        NoDup (map fst props) -> lookup "type" props = None ->
        tagStep (JObject props)
        = JObject (("type", JString "step") :: props)) /\
    loadSequence
      (Parsed (JArray [JObject [("time", JNumber 20); ("id", JString "a")]])) s
    = setRawItems
        [JObject [("type", JString "step"); ("time", JNumber 20);
                  ("id", JString "a")]] s /\
    map asStep
        [JObject [("type", JString "step"); ("time", JNumber 20);
                  ("id", JString "a")]]
    = [Some (mkStep 20 None "a")] /\
    loadSequence ReadRejected s = alertLoadFailure s /\
    loadSequence NotJSON s = alertLoadFailure s /\
    (forall parsed,
        (forall its, get_items parsed <> Normal (Some (JArray its))) ->
        (forall steps, parsed <> JArray steps) ->
        loadSequence (Parsed parsed) s = alertLoadFailure s) /\
    rawItems (alertLoadFailure s) = rawItems s /\
    notices (alertLoadFailure s) = notices s ++ [loadFailure].
Proof.
  intros s.
  split. { intros props its H. unfold loadSequence. simpl. now rewrite H. }
  split. { reflexivity. }
  split. { exact tagStep_untyped. }
  split. { reflexivity. }
  split. { reflexivity. }
  split. { reflexivity. }
  split. { reflexivity. }
  split; [|split; reflexivity].
  intros parsed Hitems Harr. unfold loadSequence.
  destruct (get_items parsed) as [[[ | | | |its| ]|]|] eqn:E; simpl;
    try (destruct parsed; try reflexivity; exfalso; now eapply Harr).
  exfalso. now apply (Hitems its).
Qed.

Lemma loadSequence_migrates_bare_arrays_only_witness :
  loadSequence
    (Parsed (JObject [("id", JString "1"); ("name", JString "n");
                      ("items", JArray [JObject [("type", JString "step");
                                                 ("time", JNumber 20);
                                                 ("id", JString "a")]])]))
    (mkScreen [] [])
  = setRawItems
      [JObject [("type", JString "step"); ("time", JNumber 20);
                ("id", JString "a")]]
      (mkScreen [] []).
Proof.
  apply (proj1 (loadSequence_migrates_bare_arrays_only (mkScreen [] []))).
  reflexivity.
Defined.

(** C6, as stated, fails: a payload with [steps] and no [items] is not
    migrated but gives the load-failure notice, the tree staying as it
    was; and a payload whose [items] holds no unit at all is stored with
    no notice. *)
Lemma loadSequence_does_not_migrate_steps :
  let legacy :=
    JObject [("id", JString "1"); ("name", JString "n");
             ("steps", JArray [JObject [("time", JNumber 20);
                                        ("id", JString "a")]])] in
  let s0 := mkScreen [] [] in
  has_key "steps" legacy = true /\
  has_key "items" legacy = false /\
  loadSequence (Parsed legacy) s0 = mkScreen [] [loadFailure] /\
  rawItems (loadSequence (Parsed legacy) s0)
  <> [JObject [("type", JString "step"); ("time", JNumber 20);
               ("id", JString "a")]] /\
  loadSequence (Parsed (JObject [("items", JArray [JNull])])) s0
  = mkScreen [JNull] [].
Proof. cbv zeta. repeat split; try reflexivity. discriminate. Qed.

End PersistenceFacts.

(* ===================================================================== *)
(** * Further properties of the tree, the flattener and the editor *)
(* ===================================================================== *)

Lemma steps_of_step s rest : steps_of (IStep s :: rest) = s :: steps_of rest.
Proof. reflexivity. Qed.

Lemma steps_of_loop l r cs lb rest :
  steps_of (ILoop l r cs lb :: rest) = steps_of cs ++ steps_of rest.
Proof. reflexivity. Qed.

Lemma repetitions_from_step lo s rest :
  repetitions_from lo (IStep s :: rest) = repetitions_from lo rest.
Proof. reflexivity. Qed.

Lemma repetitions_from_loop lo l r cs lb rest :
  repetitions_from lo (ILoop l r cs lb :: rest) =
  (lo <=? r)%Z && repetitions_from lo cs && repetitions_from lo rest.
Proof. reflexivity. Qed.

Lemma fold_add_zsum (f : LoopItem -> Z) t acc :
  fold_left (fun total item => (total + f item)%Z) t acc
  = (acc + zsum (map f t))%Z.
Proof.
  revert acc. induction t as [|x t IH]; intros acc; simpl; [lia|].
  rewrite IH. lia.
Qed.

Lemma calculateTotalTime_zsum t : calculateTotalTime t = zsum (map itemTime t).
Proof. unfold calculateTotalTime. now rewrite fold_add_zsum. Qed.

Lemma calculateTotalTime_step s rest :
  calculateTotalTime (IStep s :: rest) = (time s + calculateTotalTime rest)%Z.
Proof. now rewrite !calculateTotalTime_zsum. Qed.

Lemma calculateTotalTime_loop l r cs lb rest :
  calculateTotalTime (ILoop l r cs lb :: rest)
  = (calculateTotalTime cs * r + calculateTotalTime rest)%Z.
Proof.
  rewrite !calculateTotalTime_zsum. cbn [map zsum fold_right itemTime].
  rewrite fold_add_zsum. unfold zsum. now rewrite Z.add_0_l.
Qed.

Lemma zsum_app l1 l2 : zsum (l1 ++ l2) = (zsum l1 + zsum l2)%Z.
Proof. induction l1 as [|x l1 IH]; simpl; [reflexivity|]. rewrite IH. lia. Qed.

Lemma zsum_times_repeat (xs : list SequenceStep) n :
  zsum (map time (concat (repeat xs n)))
  = (Z.of_nat n * zsum (map time xs))%Z.
Proof.
  induction n as [|n IH]; [reflexivity|].
  cbn [repeat concat]. rewrite map_app, zsum_app, IH. lia.
Qed.

Lemma in_concat_repeat {A} (x : A) xs n :
  In x (concat (repeat xs n)) <-> In x xs /\ 0 < n.
Proof.
  induction n as [|n IH]; simpl.
  - split; [contradiction|intros [_ H]; lia].
  - rewrite in_app_iff, IH. split; [intros [H|[H _]]; split; auto; lia|tauto].
Qed.

(** X1. Flattening distributes over the concatenation of two trees: the
    steps of the first tree are played before those of the second. *)
Theorem flattenSequence_app :
  forall t1 t2,
    flattenSequence (t1 ++ t2) = flattenSequence t1 ++ flattenSequence t2.
Proof.
  intros. rewrite !flattenSequence_spec. unfold flatten_spec.
  apply flat_map_app.
Qed.

Lemma flatten_spec_entries t :
  (forall s, In s (flatten_spec t) -> In s (steps_of t)) /\
  (repetitions_from 1 t = true ->
   forall s, In s (steps_of t) -> In s (flatten_spec t)).
Proof.
  induction t as [|s0 rest IH|l r cs lb rest IHcs IHrest] using tree_ind.
  - split; auto.
  - rewrite flatten_spec_step, steps_of_step, repetitions_from_step.
    destruct IH as [IH1 IH2]. split.
    + intros s [H|H]; [now left|right; auto].
    + intros Hr s [H|H]; [now left|right; auto].
  - rewrite flatten_spec_loop, steps_of_loop, repetitions_from_loop.
    destruct IHcs as [C1 C2], IHrest as [R1 R2]. split.
    + intros s. rewrite !in_app_iff, in_concat_repeat.
      intros [[H _]|H]; auto.
    + rewrite !andb_true_iff. intros [[Hr Hcs] Hrest] s.
      rewrite !in_app_iff, in_concat_repeat.
      apply Z.leb_le in Hr. unfold iterations.
      intros [H|H]; [left; split; [auto|lia]|right; auto].
Qed.

(** X2. The flattened list never holds an entry that is not a step of the
    tree; and when every loop has at least one repetition, every step of
    the tree is played. *)
Theorem flattenSequence_entries :
  forall t,
    (forall s, In s (flattenSequence t) -> In s (steps_of t)) /\
    (repetitions_from 1 t = true ->
     forall s, In s (steps_of t) -> In s (flattenSequence t)).
Proof.
  intros t. rewrite flattenSequence_spec. apply flatten_spec_entries.
Qed.

Lemma flattenSequence_entries_witness :
  In (mkStep 10 None "2")
     (flattenSequence [ILoop "1" 2 [IStep (mkStep 10 None "2")] None]).
Proof.
  apply (proj2 (flattenSequence_entries
                  [ILoop "1" 2 [IStep (mkStep 10 None "2")] None])).
  - reflexivity.
  - simpl. now left.
Defined.

(** X3. When no loop has a negative repetition count, the total that the
    library screen shows for a sequence ([calculateTotalTime]) is the sum
    of the durations of the steps that the home screen plays
    ([flattenSequence]). *)
Theorem calculateTotalTime_is_played_time :
  forall t,
    repetitions_from 0 t = true ->
    calculateTotalTime t = zsum (map time (flattenSequence t)).
Proof.
  intros t. rewrite flattenSequence_spec.
  induction t as [|s0 rest IH|l r cs lb rest IHcs IHrest] using tree_ind.
  - reflexivity.
  - rewrite repetitions_from_step, calculateTotalTime_step, flatten_spec_step.
    intros H. simpl. now rewrite IH.
  - rewrite repetitions_from_loop, calculateTotalTime_loop, flatten_spec_loop.
    rewrite !andb_true_iff. intros [[Hr Hcs] Hrest].
    apply Z.leb_le in Hr.
    rewrite map_app, zsum_app, zsum_times_repeat, IHcs, IHrest by assumption.
    unfold iterations. rewrite Z2Nat.id by assumption. lia.
Qed.

Lemma calculateTotalTime_is_played_time_witness :
  calculateTotalTime
    [IStep (mkStep 30 None "1");
     ILoop "2" 2 [IStep (mkStep 10 None "3"); IStep (mkStep 5 None "4")] None]
  = zsum (map time
            (flattenSequence
               [IStep (mkStep 30 None "1");
                ILoop "2" 2 [IStep (mkStep 10 None "3");
                             IStep (mkStep 5 None "4")] None])).
Proof.
  apply calculateTotalTime_is_played_time. reflexivity.
Defined.

(** ** Insertion and removal together *)

Lemma ids_app t1 t2 : ids (t1 ++ t2) = ids t1 ++ ids t2.
Proof. unfold ids. apply flat_map_app. Qed.

Lemma ids_single u : ids [u] = item_ids u.
Proof. unfold ids. simpl. apply app_nil_r. Qed.

Lemma item_ids_head u : exists tl, item_ids u = item_id u :: tl.
Proof. destruct u as [s|l r cs lb]; simpl; eauto. Qed.

Lemma removeFromItems_app rid t1 t2 :
  removeFromItems rid (t1 ++ t2)
  = removeFromItems rid t1 ++ removeFromItems rid t2.
Proof.
  unfold removeFromItems. rewrite !filter_map_spec, filter_app, map_app.
  reflexivity.
Qed.

Lemma removeFromItems_self u : removeFromItems (item_id u) [u] = [].
Proof.
  unfold removeFromItems. simpl. now rewrite String.eqb_refl.
Qed.

Lemma removeFromItems_updateItems p u t :
  ~ In (item_id u) (ids t) ->
  removeFromItems (item_id u) (updateItems p u t) = t.
Proof.
  induction t as [|s rest IH|l r cs lb rest IHcs IHrest] using tree_ind.
  - reflexivity.
  - rewrite ids_step, updateItems_step, removeFromItems_step.
    intros H. cbn [In] in H.
    destruct (String.eqb_spec (id s) (item_id u)); [tauto|].
    now rewrite IH by tauto.
  - rewrite ids_loop, updateItems_loop. intros H.
    cbn [In] in H. rewrite in_app_iff in H.
    destruct (String.eqb l p);
      rewrite removeFromItems_loop;
      (destruct (String.eqb_spec l (item_id u)); [tauto|]).
    + rewrite removeFromItems_app, removeFromItems_self, app_nil_r.
      rewrite removeFromItems_absent, IHrest by tauto. reflexivity.
    + now rewrite IHcs, IHrest by tauto.
Qed.

Lemma removeFromItems_inserted u s :
  ~ In (item_id u) (ids (items s)) ->
  removeFromItems (item_id u) (inserted u s) = items s.
Proof.
  intros H.
  assert (Happ : removeFromItems (item_id u) (items s ++ [u]) = items s).
  { rewrite removeFromItems_app, removeFromItems_self, app_nil_r.
    now apply removeFromItems_absent. }
  unfold inserted. destruct (currentParentId s) as [p|]; [|exact Happ].
  destruct (String.eqb p ""); [exact Happ|].
  destruct (parentExists (items s) p); [|exact Happ].
  now apply removeFromItems_updateItems.
Qed.

(** X4. Adding a unit under an id that the tree does not use yet and then
    removing that id gives back the tree as it was, wherever the unit had
    been inserted (top level or a selected loop); so for [addStep] and
    [addLoop] followed by [removeItem] of the new id. *)
Theorem insert_then_remove_restores_tree :
  forall s now,
    ~ In now (ids (items s)) ->
    (forall u, item_id u = now ->
       items (exec (removeItem now) (exec (insertUnit u) s)) = items s) /\
    items (exec (removeItem now) (exec (addStep now) s)) = items s /\
    (forall r,
       items (exec (removeItem now) (exec (addLoop now r) s)) = items s).
Proof.
  intros s now Hfresh. repeat split.
  - intros u <-. rewrite removeItem_items, insertUnit_exec. simpl.
    now apply removeFromItems_inserted.
  - rewrite removeItem_items.
    destruct (Z.le_gt_cases (totalTime s) 0) as [Hle|Hgt].
    + unfold exec at 1. rewrite addStep_nonpositive_is_noop by assumption.
      now apply removeFromItems_absent.
    + rewrite addStep_exec_positive by lia. simpl.
      now apply (removeFromItems_inserted
                   (IStep {| time := totalTime s; label := None; id := now |})).
  - intros r. rewrite removeItem_items, addLoop_exec. simpl.
    now apply (removeFromItems_inserted (ILoop now r [] None)).
Qed.

Lemma insert_then_remove_restores_tree_witness :
  let s := mkApp "" "20" false 0 0
                 [ILoop "1" 2 [IStep (mkStep 10 None "2")] None] [] false "1"
                 (Some "1") [] in
  items (exec (removeItem "3") (exec (addStep "3") s)) = items s.
Proof.
  apply (proj1 (proj2 (insert_then_remove_restores_tree
           (mkApp "" "20" false 0 0
                  [ILoop "1" 2 [IStep (mkStep 10 None "2")] None] [] false "1"
                  (Some "1") []) "3"
           ltac:(simpl; intros [H|[H|[]]]; discriminate H)))).
Defined.

Lemma flat_length_removeFromItems rid t :
  flat_length (removeFromItems rid t) <= flat_length t.
Proof.
  induction t as [|s rest IH|l r cs lb rest IHcs IHrest] using tree_ind.
  - apply le_n.
  - rewrite removeFromItems_step.
    destruct (String.eqb (id s) rid); rewrite ?flat_length_step; lia.
  - rewrite removeFromItems_loop.
    destruct (String.eqb l rid); rewrite ?flat_length_loop; nia.
Qed.

(** X5. Editing moves the length of the playback in one direction only:
    inserting a unit ([addStep], [addLoop]) never makes the flattened
    sequence shorter, removing one never makes it longer. *)
Theorem editing_playback_length_monotone :
  forall s,
    (forall u,
       length (flattenSequence (items s))
       <= length (flattenSequence (items (exec (insertUnit u) s)))) /\
    (forall now,
       length (flattenSequence (items s))
       <= length (flattenSequence (items (exec (addStep now) s)))) /\
    (forall now r,
       length (flattenSequence (items s))
       <= length (flattenSequence (items (exec (addLoop now r) s)))) /\
    (forall rid,
       length (flattenSequence (items (exec (removeItem rid) s)))
       <= length (flattenSequence (items s))).
Proof.
  intros s. rewrite !length_flattenSequence. repeat split.
  - intros u. rewrite length_flattenSequence, insertUnit_exec. simpl.
    apply flat_length_inserted.
  - intros now. rewrite length_flattenSequence.
    destruct (Z.le_gt_cases (totalTime s) 0) as [Hle|Hgt].
    + unfold exec. now rewrite addStep_nonpositive_is_noop.
    + rewrite addStep_exec_positive by lia. simpl. apply flat_length_inserted.
  - intros now r. rewrite length_flattenSequence, addLoop_exec. simpl.
    apply flat_length_inserted.
  - intros rid. rewrite length_flattenSequence, removeItem_items.
    apply flat_length_removeFromItems.
Qed.

Lemma removeFromItems_comm a b t :
  removeFromItems a (removeFromItems b t)
  = removeFromItems b (removeFromItems a t).
Proof.
  induction t as [|s rest IH|l r cs lb rest IHcs IHrest] using tree_ind.
  - reflexivity.
  - rewrite !removeFromItems_step.
    destruct (String.eqb (id s) a) eqn:Ea, (String.eqb (id s) b) eqn:Eb;
      rewrite ?removeFromItems_step, ?Ea, ?Eb, ?IH; reflexivity.
  - rewrite !removeFromItems_loop.
    destruct (String.eqb l a) eqn:Ea, (String.eqb l b) eqn:Eb;
      rewrite ?removeFromItems_loop, ?Ea, ?Eb, ?IHcs, ?IHrest; reflexivity.
Qed.


Lemma NoDup_app_disjoint {A} (l1 l2 : list A) x :
  NoDup (l1 ++ l2) -> In x l1 -> ~ In x l2.
Proof.
  induction l1 as [|a l1 IH]; simpl; [contradiction|].
  intros Hnd [->|Hin] Hx; inversion Hnd as [|? ? Hn Hnd']; subst.
  - apply Hn, in_or_app. now right.
  - now apply IH.
Qed.

Lemma loop_ids_app t1 t2 : loop_ids (t1 ++ t2) = loop_ids t1 ++ loop_ids t2.
Proof. unfold loop_ids. apply flat_map_app. Qed.

(** When the ids are unique and [p] names a loop, [updateItems] puts the
    unit into the tree exactly once. *)
Lemma ids_updateItems_perm p u t :
  NoDup (ids t) -> In p (loop_ids t) ->
  Permutation (ids (updateItems p u t)) (item_ids u ++ ids t).
Proof.
  induction t as [|s rest IH|l r cs lb rest IHcs IHrest] using tree_ind.
  - contradiction.
  - rewrite ids_step, loop_ids_step, updateItems_step, ids_step.
    intros Hnd Hin. inversion Hnd; subst.
    rewrite IH by assumption. apply Permutation_middle.
  - rewrite ids_loop, loop_ids_loop, updateItems_loop.
    intros Hnd Hin. inversion Hnd as [|? ? Hl Hnd']; subst.
    rewrite in_app_iff in Hl.
    assert (Hcs : NoDup (ids cs)) by now apply NoDup_app_remove_r in Hnd'.
    assert (Hrest : NoDup (ids rest)) by now apply NoDup_app_remove_l in Hnd'.
    destruct (String.eqb_spec l p) as [->|Hne].
    + rewrite ids_loop, ids_app, ids_single.
      rewrite (updateItems_no_loop p u rest)
        by (intros H; apply loop_ids_incl in H; tauto).
      rewrite <- app_assoc.
      transitivity (p :: item_ids u ++ ids cs ++ ids rest).
      * apply perm_skip. apply Permutation_app_swap_app.
      * apply Permutation_middle.
    + rewrite ids_loop. destruct Hin as [Heq|Hin]; [congruence|].
      apply in_app_or in Hin. destruct Hin as [Hin|Hin].
      * rewrite (updateItems_no_loop p u rest).
        2:{ intros H. apply loop_ids_incl in H. apply loop_ids_incl in Hin.
            now apply (NoDup_app_disjoint _ _ p Hnd'). }
        rewrite IHcs by assumption. rewrite <- app_assoc.
        apply Permutation_middle.
      * rewrite (updateItems_no_loop p u cs).
        2:{ intros H. apply loop_ids_incl in H. apply loop_ids_incl in Hin.
            now apply (NoDup_app_disjoint _ _ p Hnd'). }
        rewrite IHrest by assumption.
        transitivity (l :: item_ids u ++ ids cs ++ ids rest).
        -- apply perm_skip. apply Permutation_app_swap_app.
        -- apply Permutation_middle.
Qed.

(** X6. In a tree with unique ids, inserting into a selected loop adds the
    ids of the new unit exactly once and keeps every other id: the ids of
    the new tree are a permutation of the old ids and the new unit's. *)
Theorem insert_into_loop_adds_unit_once :
  forall s p u,
    currentParentId s = Some p -> p <> "" ->
    NoDup (ids (items s)) -> In p (loop_ids (items s)) ->
    Permutation (ids (items (exec (insertUnit u) s)))
                (item_ids u ++ ids (items s)).
Proof.
  intros s p u Hcur Hne Hnd Hin. rewrite insertUnit_items, Hcur.
  destruct (String.eqb_spec p ""); [contradiction|].
  pose proof (loop_ids_incl _ _ Hin) as Hin'.
  apply parentExists_In in Hin'. rewrite Hin'.
  now apply ids_updateItems_perm.
Qed.

Lemma insert_into_loop_adds_unit_once_witness :
  Permutation
    (ids (items (exec (insertUnit (IStep (mkStep 5 None "3")))
                      (mkApp "" "" false 0 0
                             [ILoop "1" 2 [IStep (mkStep 10 None "2")] None]
                             [] false "1" (Some "1") []))))
    (["3"] ++ ["1"; "2"]).
Proof.
  apply (insert_into_loop_adds_unit_once
           (mkApp "" "" false 0 0
                  [ILoop "1" 2 [IStep (mkStep 10 None "2")] None]
                  [] false "1" (Some "1") []) "1"
           (IStep (mkStep 5 None "3"))).
  - reflexivity.
  - discriminate.
  - simpl. repeat constructor; simpl; intuition discriminate.
  - simpl. now left.
Defined.

Lemma removeItem_twice_selection a b s :
  currentParentId (exec (removeItem b) (exec (removeItem a) s)) =
  match currentParentId s with
  | None => None
  | Some p =>
      if String.eqb p a || String.eqb p b
         || parentMissing (removeFromItems b (removeFromItems a (items s)))
                          (Some p)
      then None else Some p
  end.
Proof.
  rewrite (removeItem_exec b), (removeItem_exec a).
  cbn -[removeFromItems parentMissing String.eqb selection_after_remove].
  unfold selection_after_remove at 1.
  cbn -[removeFromItems parentMissing String.eqb selection_after_remove].
  unfold selection_after_remove.
  destruct (currentParentId s) as [p|]; [|reflexivity].
  destruct (String.eqb p a) eqn:Ea;
    cbn -[removeFromItems parentMissing String.eqb]; [reflexivity|].
  destruct (parentMissing (removeFromItems a (items s)) (Some p)) eqn:Ma;
    cbn -[removeFromItems parentMissing String.eqb].
  - apply parentMissing_true in Ma. destruct Ma as [Hne Hnot].
    assert (Mb : parentMissing
                   (removeFromItems b (removeFromItems a (items s))) (Some p)
                 = true).
    { apply parentMissing_true. split; [assumption|].
      intros H. now apply ids_removeFromItems_incl in H. }
    rewrite Mb, orb_true_r. reflexivity.
  - reflexivity.
Qed.

(** X7. Two removals commute: removing [a] then [b] leaves the same state
    (tree and selected parent included) as removing [b] then [a]. *)
Theorem removeItem_commutes :
  forall s a b,
    exec (removeItem a) (exec (removeItem b) s)
    = exec (removeItem b) (exec (removeItem a) s).
Proof.
  intros s a b.
  pose proof (removeItem_twice_selection a b s) as Hab.
  pose proof (removeItem_twice_selection b a s) as Hba.
  rewrite (removeItem_exec a (exec _ s)), (removeItem_exec b (exec _ s)).
  rewrite (removeItem_exec a (exec _ s)) in Hba.
  rewrite (removeItem_exec b (exec _ s)) in Hab.
  cbn [currentParentId] in Hab, Hba. rewrite Hab, Hba.
  rewrite !removeItem_exec.
  cbn -[removeFromItems parentMissing String.eqb selection_after_remove].
  rewrite (removeFromItems_comm a b).
  f_equal. destruct (currentParentId s) as [p|]; [|reflexivity].
  now rewrite (orb_comm (String.eqb p b) (String.eqb p a)).
Qed.

(** ** Typed numbers *)

Lemma is_digit_cases c :
  is_digit c = true ->
  c = "0"%char \/ c = "1"%char \/ c = "2"%char \/ c = "3"%char \/
  c = "4"%char \/ c = "5"%char \/ c = "6"%char \/ c = "7"%char \/
  c = "8"%char \/ c = "9"%char.
Proof.
  destruct c as [[] [] [] [] [] [] [] []]; intros H;
    try discriminate H; tauto.
Qed.

Lemma all_digits_keep_digits text : all_digits (keep_digits text) = true.
Proof.
  induction text as [|c rest IH]; simpl; [reflexivity|].
  destruct (is_digit c) eqn:E; [simpl; now rewrite E|assumption].
Qed.

Lemma digit_value_nonneg radix c d :
  digit_value radix c = Some d -> (0 <= d)%Z.
Proof.
  unfold digit_value.
  set (n := Z.of_nat (nat_of_ascii c)).
  destruct ((48 <=? n)%Z && (n <=? 57)%Z) eqn:E1.
  - apply andb_true_iff in E1. destruct E1 as [E1 _]. apply Z.leb_le in E1.
    destruct (n - 48 <? radix)%Z; intros H; inversion H; lia.
  - destruct ((97 <=? n)%Z && (n <=? 122)%Z) eqn:E2.
    + apply andb_true_iff in E2. destruct E2 as [E2 _]. apply Z.leb_le in E2.
      destruct (n - 87 <? radix)%Z; intros H; inversion H; lia.
    + destruct ((65 <=? n)%Z && (n <=? 90)%Z) eqn:E3; [|discriminate].
      apply andb_true_iff in E3. destruct E3 as [E3 _]. apply Z.leb_le in E3.
      destruct (n - 55 <? radix)%Z; intros H; inversion H; lia.
Qed.

Lemma read_digits_nonneg radix s :
  (0 <= radix)%Z ->
  forall acc,
    match acc with Some a => (0 <= a)%Z | None => True end ->
    match read_digits radix s acc with
    | Some v => (0 <= v)%Z
    | None => True
    end.
Proof.
  intros Hr. induction s as [|c rest IH]; intros acc Hacc; simpl.
  - exact Hacc.
  - destruct (digit_value radix c) as [d|] eqn:E; [|exact Hacc].
    apply IH. apply digit_value_nonneg in E.
    destruct acc as [a|]; [nia|assumption].
Qed.

Lemma is_space_digit c : is_digit c = true -> is_space c = false.
Proof.
  intros H. apply is_digit_cases in H.
  destruct H as [->|[->|[->|[->|[->|[->|[->|[->|[->| ->]]]]]]]]];
    reflexivity.
Qed.

Lemma signed_once (r : option Z) :
  match r with Some v => Some (1 * v)%Z | None => None end = r.
Proof. destruct r as [v|]; [|reflexivity]. f_equal. lia. Qed.

(** On a string of digits [parseInt] reads a decimal number: there is no
    white space, no sign and no [0x] prefix to take off. *)
Lemma parseInt_all_digits s :
  all_digits s = true -> parseInt s = read_digits 10 s None.
Proof.
  destruct s as [|c rest]; [reflexivity|].
  cbn [all_digits]. rewrite andb_true_iff. intros [Hc Hrest].
  unfold parseInt. cbn [skip_spaces]. rewrite (is_space_digit c Hc).
  apply is_digit_cases in Hc.
  destruct Hc as [->|[->|[->|[->|[->|[->|[->|[->|[->| ->]]]]]]]]];
    try (lazy beta iota zeta; apply signed_once).
  (* a leading 0: the next character is a digit or the end, never x *)
  destruct rest as [|c2 rest2].
  - lazy beta iota zeta. apply signed_once.
  - cbn [all_digits] in Hrest. apply andb_true_iff in Hrest.
    destruct Hrest as [Hc2 _]. apply is_digit_cases in Hc2.
    destruct Hc2 as [->|[->|[->|[->|[->|[->|[->|[->|[->| ->]]]]]]]]];
      lazy beta iota zeta; apply signed_once.
Qed.

Lemma parseInt_digits_nonneg s :
  all_digits s = true ->
  match parseInt s with Some v => (0 <= v)%Z | None => True end.
Proof.
  intros H. rewrite parseInt_all_digits by assumption.
  apply read_digits_nonneg; [lia|exact I].
Qed.

(** X8. Whatever is typed into the repetitions field, the loop that
    "Créer" hands to [addLoop] repeats at least once: an empty field and
    a typed [0] both give 1. *)
Theorem typed_repetitions_at_least_one :
  forall text,
    (1 <= num_or (parseInt (keep_digits text)) 1)%Z /\
    num_or (parseInt (keep_digits "")) 1 = 1%Z /\
    num_or (parseInt (keep_digits "0")) 1 = 1%Z /\
    num_or (parseInt (keep_digits "x3y")) 1 = 3%Z.
Proof.
  intros text. split; [|repeat split; reflexivity].
  pose proof (parseInt_digits_nonneg _ (all_digits_keep_digits text)) as H.
  unfold num_or. destruct (parseInt (keep_digits text)) as [v|]; [|lia].
  destruct (Z.eqb_spec v 0); lia.
Qed.

(** ** Editing sessions *)

Lemma loop_ids_updateItems_incl p u t x :
  In x (loop_ids t) -> In x (loop_ids (updateItems p u t)).
Proof.
  induction t as [|s rest IH|l r cs lb rest IHcs IHrest] using tree_ind.
  - auto.
  - rewrite updateItems_step, !loop_ids_step. auto.
  - rewrite updateItems_loop.
    destruct (String.eqb l p); rewrite !loop_ids_loop; cbn [In];
      rewrite ?loop_ids_app, !in_app_iff; tauto.
Qed.

Lemma ids_updateItems_in p u t :
  In p (loop_ids t) -> In (item_id u) (ids (updateItems p u t)).
Proof.
  destruct (item_ids_head u) as [tl Hu].
  induction t as [|s rest IH|l r cs lb rest IHcs IHrest] using tree_ind.
  - contradiction.
  - rewrite loop_ids_step, updateItems_step, ids_step. intros H.
    right. auto.
  - rewrite loop_ids_loop, updateItems_loop. intros H.
    destruct (String.eqb_spec l p) as [->|Hne]; rewrite ids_loop; cbn [In].
    + right. rewrite ids_app, ids_single, Hu, !in_app_iff.
      left. right. now left.
    + destruct H as [H|H]; [congruence|]. apply in_app_or in H.
      rewrite in_app_iff. tauto.
Qed.

Lemma inserted_contains u s :
  selection_ok s -> In (item_id u) (ids (inserted u s)).
Proof.
  destruct (item_ids_head u) as [tl Hu].
  assert (Happ : In (item_id u) (ids (items s ++ [u]))).
  { rewrite ids_app, ids_single, Hu, in_app_iff. right. now left. }
  unfold selection_ok, inserted.
  destruct (currentParentId s) as [p|]; [|intros _; exact Happ].
  destruct (String.eqb_spec p ""); [intros _; exact Happ|].
  intros [Hp|Hp]; [contradiction|].
  destruct (parentExists (items s) p); [|exact Happ].
  now apply ids_updateItems_in.
Qed.

Lemma NoDup_ids_inserted u now s :
  item_ids u = [now] -> ~ In now (ids (items s)) ->
  NoDup (ids (items s)) -> selection_ok s ->
  NoDup (ids (inserted u s)).
Proof.
  intros Hu Hfresh Hnd Hsel.
  assert (Happ : NoDup (ids (items s ++ [u]))).
  { rewrite ids_app, ids_single, Hu.
    apply (Permutation_NoDup (Permutation_cons_append (ids (items s)) now)).
    now constructor. }
  unfold selection_ok, inserted in *.
  destruct (currentParentId s) as [p|]; [|exact Happ].
  destruct (String.eqb_spec p ""); [exact Happ|].
  destruct Hsel as [Hp|Hp]; [contradiction|].
  destruct (parentExists (items s) p); [|exact Happ].
  apply (Permutation_NoDup
           (Permutation_sym (ids_updateItems_perm p u _ Hnd Hp))).
  rewrite Hu. now constructor.
Qed.

Lemma loop_ids_inserted u s x :
  In x (loop_ids (items s)) -> In x (loop_ids (inserted u s)).
Proof.
  intros H. unfold inserted.
  destruct (currentParentId s) as [p|];
    [destruct (String.eqb p ""); [|destruct (parentExists (items s) p)]|];
    rewrite ?loop_ids_app, ?in_app_iff; auto.
  now apply loop_ids_updateItems_incl.
Qed.

Lemma NoDup_ids_removeFromItems rid t :
  NoDup (ids t) -> NoDup (ids (removeFromItems rid t)).
Proof.
  induction t as [|s rest IH|l r cs lb rest IHcs IHrest] using tree_ind.
  - auto.
  - rewrite ids_step, removeFromItems_step. intros Hnd.
    inversion Hnd as [|? ? Hn Hnd']; subst.
    destruct (String.eqb (id s) rid); [auto|].
    rewrite ids_step. constructor; [|auto].
    intros H. now apply ids_removeFromItems_incl in H.
  - rewrite ids_loop, removeFromItems_loop. intros Hnd.
    inversion Hnd as [|? ? Hn Hnd']; subst. rewrite in_app_iff in Hn.
    pose proof (NoDup_app_remove_l _ _ Hnd') as Hrest.
    pose proof (NoDup_app_remove_r _ _ Hnd') as Hcs.
    destruct (String.eqb l rid); [auto|].
    rewrite ids_loop. constructor.
    + rewrite in_app_iff.
      intros [H|H]; apply ids_removeFromItems_incl in H; tauto.
    + apply NoDup_app; auto.
      intros x Hx Hy. apply ids_removeFromItems_incl in Hx, Hy.
      now apply (NoDup_app_disjoint _ _ x Hnd').
Qed.

(** With unique ids, a loop that is still in the tree after a removal is
    still a loop. *)
Lemma loop_ids_removeFromItems_kept rid t p :
  NoDup (ids t) -> In p (loop_ids t) ->
  In p (ids (removeFromItems rid t)) ->
  In p (loop_ids (removeFromItems rid t)).
Proof.
  induction t as [|s rest IH|l r cs lb rest IHcs IHrest] using tree_ind.
  - auto.
  - rewrite ids_step, loop_ids_step, removeFromItems_step. intros Hnd Hl.
    inversion Hnd as [|? ? Hn Hnd']; subst.
    destruct (String.eqb (id s) rid); [auto|].
    rewrite ids_step, loop_ids_step. intros [Heq|Hin]; [|auto].
    subst p. apply loop_ids_incl in Hl. contradiction.
  - rewrite ids_loop, loop_ids_loop, removeFromItems_loop. intros Hnd Hl.
    inversion Hnd as [|? ? Hn Hnd']; subst. rewrite in_app_iff in Hn.
    pose proof (NoDup_app_remove_l _ _ Hnd') as Hrest.
    pose proof (NoDup_app_remove_r _ _ Hnd') as Hcs.
    pose proof (fun x => NoDup_app_disjoint _ _ x Hnd') as Hdisj.
    cbn [In] in Hl. rewrite in_app_iff in Hl.
    destruct (String.eqb l rid).
    + intros Hin. pose proof (ids_removeFromItems_incl _ _ _ Hin) as Hin'.
      destruct Hl as [Heq|[Hl|Hl]]; [subst; tauto| |auto].
      apply loop_ids_incl in Hl. exfalso. now apply (Hdisj p).
    + rewrite ids_loop, loop_ids_loop. cbn [In]. rewrite !in_app_iff.
      intros [Heq|[Hin|Hin]]; [now left| |].
      * pose proof (ids_removeFromItems_incl _ _ _ Hin) as Hin'.
        destruct Hl as [Heq|[Hl|Hl]]; [now left|right; left; auto|].
        apply loop_ids_incl in Hl. exfalso. now apply (Hdisj p).
      * pose proof (ids_removeFromItems_incl _ _ _ Hin) as Hin'.
        destruct Hl as [Heq|[Hl|Hl]]; [now left| |right; right; auto].
        apply loop_ids_incl in Hl. exfalso. now apply (Hdisj p).
Qed.

Lemma string_mem_In x l : string_mem x l = true <-> In x l.
Proof.
  unfold string_mem. rewrite existsb_exists. split.
  - intros (y & Hy & E). apply String.eqb_eq in E. now subst.
  - intros H. exists x. split; [assumption|apply String.eqb_refl].
Qed.

Lemma session_invariant_step e s :
  editor_ok e s = true -> session_invariant s -> session_invariant (step e s).
Proof.
  unfold editor_ok, session_invariant. rewrite andb_true_iff.
  intros [Hen Hok] [Hnd Hsel].
  destruct e; cbn [step]; try discriminate Hok;
    try (split; [exact Hnd|exact Hsel]).
  - (* addStep *)
    apply negb_true_iff in Hok.
    assert (Hfresh : ~ In now (ids (items s))).
    { intros H. apply string_mem_In in H. congruence. }
    destruct (Z.le_gt_cases (totalTime s) 0) as [Hle|Hgt].
    + unfold exec. rewrite addStep_nonpositive_is_noop by assumption.
      split; [exact Hnd|exact Hsel].
    + rewrite addStep_exec_positive by lia.
      set (u := IStep _). split; cbn [items].
      * now apply (NoDup_ids_inserted u now).
      * unfold selection_ok in *. cbn [currentParentId items].
        destruct (currentParentId s); [|exact I].
        destruct Hsel; [now left|right; now apply loop_ids_inserted].
  - (* openLoopModal *)
    unfold openLoopModal, exec, bind, render, when.
    destruct (parentMissing _ _); [split; [exact Hnd|exact I]|].
    split; [exact Hnd|exact Hsel].
  - (* addLoop *)
    apply negb_true_iff in Hok.
    assert (Hfresh : ~ In now (ids (items s))).
    { intros H. apply string_mem_In in H. congruence. }
    rewrite addLoop_exec. set (u := ILoop _ _ _ _). split; cbn [items].
    + now apply (NoDup_ids_inserted u now).
    + unfold selection_ok in *. cbn [currentParentId items].
      destruct (currentParentId s); [|exact I].
      destruct Hsel; [now left|right; now apply loop_ids_inserted].
  - (* select a loop *)
    cbn in Hen. apply string_mem_In in Hen.
    split; [exact Hnd|]. unfold selection_ok. cbn. now right.
  - (* removeItem *)
    rewrite removeItem_exec. split; cbn [items].
    + now apply NoDup_ids_removeFromItems.
    + unfold selection_ok, selection_after_remove in *.
      cbn [currentParentId items].
      destruct (currentParentId s) as [p|]; [|exact I].
      destruct (String.eqb p rid); [exact I|]. cbn [orb].
      destruct (parentMissing (removeFromItems rid (items s)) (Some p))
        eqn:Hm; [exact I|].
      apply parentMissing_false in Hm.
      destruct Hm as [Hm|Hm]; [now left|].
      destruct Hsel as [Hp|Hp]; [now left|right].
      now apply loop_ids_removeFromItems_kept.
  - (* startSequence *)
    unfold startSequence, exec, bind, render.
    destruct (length (flattenedSequence s) =? 0)%nat;
      (split; [exact Hnd|exact Hsel]).
  - (* handleComplete *)
    unfold handleComplete, exec, bind, render.
    destruct (_ <? _)%Z; (split; [exact Hnd|exact Hsel]).
Qed.

Lemma session_invariant_run tr :
  forall s, editor_trace tr s = true ->
            session_invariant s -> session_invariant (run tr s).
Proof.
  unfold run. induction tr as [|e tr IH]; intros s; cbn [editor_trace fold_left];
    [auto|].
  rewrite andb_true_iff. intros [He Htr] Hs.
  apply IH; [assumption|]. now apply session_invariant_step.
Qed.

Lemma session_invariant_initial : session_invariant initialApp.
Proof. split; [constructor|exact I]. Qed.

(** X9. In an editing session (events the screen allows, fresh timestamps
    for new units, no load), the ids of the tree stay pairwise distinct and
    the selected parent is always none, the empty string, or the id of a
    loop that is in the tree. *)
Theorem editing_session_keeps_ids_unique_and_selection_valid :
  forall tr,
    editor_trace tr initialApp = true ->
    NoDup (ids (items (run tr initialApp))) /\
    selection_ok (run tr initialApp).
Proof.
  intros tr Htr.
  apply (session_invariant_run tr initialApp Htr session_invariant_initial).
Qed.

Lemma editing_session_keeps_ids_unique_and_selection_valid_witness :
  NoDup (ids (items (run session_trace initialApp))) /\
  selection_ok (run session_trace initialApp).
Proof.
  apply (editing_session_keeps_ids_unique_and_selection_valid session_trace).
  vm_compute. reflexivity.
Defined.

Lemma steps_of_app t1 t2 : steps_of (t1 ++ t2) = steps_of t1 ++ steps_of t2.
Proof. unfold steps_of. apply flat_map_app. Qed.

Lemma steps_of_updateItems_in p st t :
  In p (loop_ids t) -> In st (steps_of (updateItems p (IStep st) t)).
Proof.
  induction t as [|s rest IH|l r cs lb rest IHcs IHrest] using tree_ind.
  - contradiction.
  - rewrite loop_ids_step, updateItems_step, steps_of_step. intros H.
    right. auto.
  - rewrite loop_ids_loop, updateItems_loop. intros H.
    destruct (String.eqb_spec l p) as [->|Hne]; rewrite steps_of_loop.
    + rewrite steps_of_app, !in_app_iff. left. right. now left.
    + destruct H as [H|H]; [congruence|]. apply in_app_or in H.
      rewrite in_app_iff. tauto.
Qed.

Lemma inserted_contains_step st s :
  selection_ok s -> In st (steps_of (inserted (IStep st) s)).
Proof.
  assert (Happ : In st (steps_of (items s ++ [IStep st]))).
  { rewrite steps_of_app, in_app_iff. right. now left. }
  unfold selection_ok, inserted.
  destruct (currentParentId s) as [p|]; [|intros _; exact Happ].
  destruct (String.eqb_spec p ""); [intros _; exact Happ|].
  intros [Hp|Hp]; [contradiction|].
  destruct (parentExists (items s) p); [|exact Happ].
  now apply steps_of_updateItems_in.
Qed.

(** X10. In an editing session no insertion is lost: the loop made by
    [addLoop], and the step made by [addStep] from a positive total (with
    exactly that duration), are in the tree afterwards. *)
Theorem editing_session_never_drops_a_unit :
  forall tr,
    editor_trace tr initialApp = true ->
    let s := run tr initialApp in
    (forall now r, In now (ids (items (exec (addLoop now r) s)))) /\
    (forall now, (totalTime s > 0)%Z ->
                 In now (ids (items (exec (addStep now) s))) /\
                 In (mkStep (totalTime s) None now)
                    (steps_of (items (exec (addStep now) s)))).
Proof.
  intros tr Htr s.
  destruct (session_invariant_run tr initialApp Htr session_invariant_initial)
    as [_ Hsel]. fold s in Hsel.
  split.
  - intros now r. rewrite addLoop_exec. cbn [items].
    apply (inserted_contains (ILoop now r [] None) s Hsel).
  - intros now Hpos. rewrite addStep_exec_positive by assumption.
    cbn [items]. split.
    + apply (inserted_contains
               (IStep {| time := totalTime s; label := None; id := now |})
               s Hsel).
    + now apply inserted_contains_step.
Qed.

Lemma editing_session_never_drops_a_unit_witness :
  In "9" (ids (items (exec (addLoop "9" 2) (run session_trace initialApp)))).
Proof.
  apply (proj1 (editing_session_never_drops_a_unit session_trace
                  ltac:(vm_compute; reflexivity))).
Defined.


(** ** Units made by the editor *)

Lemma valid_units_step s rest :
  valid_units (IStep s :: rest) = (0 <? time s)%Z && valid_units rest.
Proof. reflexivity. Qed.

Lemma valid_units_loop l r cs lb rest :
  valid_units (ILoop l r cs lb :: rest)
  = (1 <=? r)%Z && valid_units cs && valid_units rest.
Proof. reflexivity. Qed.

Lemma valid_units_app t1 t2 :
  valid_units (t1 ++ t2) = valid_units t1 && valid_units t2.
Proof. unfold valid_units. apply forallb_app. Qed.

Lemma valid_units_updateItems p u t :
  valid_unit u = true -> valid_units t = true ->
  valid_units (updateItems p u t) = true.
Proof.
  intros Hu.
  induction t as [|s rest IH|l r cs lb rest IHcs IHrest] using tree_ind.
  - auto.
  - rewrite updateItems_step, !valid_units_step, !andb_true_iff. tauto.
  - rewrite updateItems_loop, valid_units_loop.
    destruct (String.eqb l p); rewrite valid_units_loop, ?valid_units_app;
      rewrite !andb_true_iff; cbn [valid_units forallb]; rewrite ?Hu; tauto.
Qed.

Lemma valid_units_inserted u s :
  valid_unit u = true -> valid_units (items s) = true ->
  valid_units (inserted u s) = true.
Proof.
  intros Hu Ht.
  assert (Happ : valid_units (items s ++ [u]) = true).
  { rewrite valid_units_app, Ht. cbn. now rewrite Hu. }
  unfold inserted.
  destruct (currentParentId s) as [p|]; [|exact Happ].
  destruct (String.eqb p ""); [exact Happ|].
  destruct (parentExists (items s) p); [|exact Happ].
  now apply valid_units_updateItems.
Qed.

Lemma valid_units_removeFromItems rid t :
  valid_units t = true -> valid_units (removeFromItems rid t) = true.
Proof.
  induction t as [|s rest IH|l r cs lb rest IHcs IHrest] using tree_ind.
  - auto.
  - rewrite removeFromItems_step, valid_units_step, andb_true_iff.
    destruct (String.eqb (id s) rid);
      rewrite ?valid_units_step, ?andb_true_iff; tauto.
  - rewrite removeFromItems_loop, valid_units_loop, !andb_true_iff.
    destruct (String.eqb l rid);
      rewrite ?valid_units_loop, ?andb_true_iff; tauto.
Qed.

Lemma valid_units_repetitions t :
  valid_units t = true -> repetitions_from 1 t = true.
Proof.
  induction t as [|s rest IH|l r cs lb rest IHcs IHrest] using tree_ind.
  - auto.
  - rewrite valid_units_step, repetitions_from_step, andb_true_iff. tauto.
  - rewrite valid_units_loop, repetitions_from_loop, !andb_true_iff. tauto.
Qed.

Lemma valid_units_steps_positive t :
  valid_units t = true -> Forall (fun st => (0 < time st)%Z) (steps_of t).
Proof.
  induction t as [|s rest IH|l r cs lb rest IHcs IHrest] using tree_ind.
  - constructor.
  - rewrite valid_units_step, steps_of_step, andb_true_iff.
    intros [Hs Hrest]. constructor; [now apply Z.ltb_lt|auto].
  - rewrite valid_units_loop, steps_of_loop, !andb_true_iff.
    intros [[_ Hcs] Hrest]. apply Forall_app. auto.
Qed.

Lemma valid_units_flatten_positive t :
  valid_units t = true ->
  Forall (fun st => (0 < time st)%Z) (flattenSequence t).
Proof.
  intros H. apply Forall_forall. intros st Hst.
  rewrite flattenSequence_spec in Hst.
  apply (proj1 (flatten_spec_entries t)) in Hst.
  pose proof (valid_units_steps_positive t H) as Hpos.
  now apply (proj1 (Forall_forall _ _) Hpos).
Qed.

Lemma typed_repetitions_valid lr :
  all_digits lr = true -> (1 <=? num_or (parseInt lr) 1)%Z = true.
Proof.
  intros H. apply Z.leb_le.
  pose proof (parseInt_digits_nonneg lr H) as Hp.
  unfold num_or. destruct (parseInt lr) as [v|]; [|lia].
  destruct (Z.eqb_spec v 0); lia.
Qed.

Lemma units_invariant_step e s :
  is_load e = false -> units_invariant s -> units_invariant (step e s).
Proof.
  unfold units_invariant. intros He (Hv & Hd & Hf).
  destruct e; cbn [step]; try discriminate He;
    try (split; [exact Hv|split; [exact Hd|exact Hf]]).
  - (* addStep *)
    destruct (Z.le_gt_cases (totalTime s) 0) as [Hle|Hgt].
    + unfold exec. rewrite addStep_nonpositive_is_noop by assumption.
      split; [exact Hv|split; [exact Hd|exact Hf]].
    + rewrite addStep_exec_positive by lia.
      split; [|split; [exact Hd|exact Hf]]. cbn [items].
      apply valid_units_inserted; [|exact Hv].
      cbn. apply Z.ltb_lt. lia.
  - (* openLoopModal *)
    unfold openLoopModal, exec, bind, render, when.
    destruct (parentMissing _ _);
      (split; [exact Hv|split; [exact Hd|exact Hf]]).
  - (* typing the repetitions *)
    split; [exact Hv|split; [|exact Hf]].
    apply all_digits_keep_digits.
  - (* addLoop *)
    rewrite addLoop_exec. split; [|split; [reflexivity|exact Hf]].
    cbn [items]. apply valid_units_inserted; [|exact Hv].
    cbn. rewrite andb_true_r. now apply typed_repetitions_valid.
  - (* removeItem *)
    rewrite removeItem_exec. split; [|split; [exact Hd|exact Hf]].
    cbn [items]. now apply valid_units_removeFromItems.
  - (* flattenEffect *)
    split; [exact Hv|split; [exact Hd|]].
    unfold flattenEffect, exec, bind, render. cbn [snd setFlattenedSequence
      flattenedSequence]. now apply valid_units_flatten_positive.
  - (* startSequence *)
    unfold startSequence, exec, bind, render.
    destruct (length (flattenedSequence s) =? 0)%nat;
      (split; [exact Hv|split; [exact Hd|exact Hf]]).
  - (* handleComplete *)
    unfold handleComplete, exec, bind, render.
    destruct (_ <? _)%Z; (split; [exact Hv|split; [exact Hd|exact Hf]]).
Qed.

Lemma units_invariant_run tr :
  forallb (fun e => negb (is_load e)) tr = true ->
  forall s, units_invariant s -> units_invariant (run tr s).
Proof.
  unfold run. induction tr as [|e tr IH]; cbn [forallb fold_left]; [auto|].
  rewrite andb_true_iff, negb_true_iff. intros [He Htr] s Hs.
  apply IH; [assumption|]. now apply units_invariant_step.
Qed.

Lemma units_invariant_initial : units_invariant initialApp.
Proof. repeat split. constructor. Qed.

(** X11. As long as the tree is only changed through the editor (no
    load), every step of the tree lasts more than 0 seconds, every loop
    repeats at least once, and therefore every step of the tree is played
    when the tree is flattened. *)
Theorem editor_units_are_valid_and_played :
  forall tr,
    forallb (fun e => negb (is_load e)) tr = true ->
    let s := run tr initialApp in
    valid_units (items s) = true /\
    (forall st, In st (steps_of (items s)) ->
                (0 < time st)%Z /\ In st (flattenSequence (items s))).
Proof.
  intros tr Htr s.
  destruct (units_invariant_run tr Htr initialApp units_invariant_initial)
    as (Hv & _ & _). fold s in Hv.
  split; [exact Hv|]. intros st Hst. split.
  - pose proof (valid_units_steps_positive _ Hv) as Hpos.
    now apply (proj1 (Forall_forall _ _) Hpos).
  - rewrite flattenSequence_spec.
    apply (proj2 (flatten_spec_entries (items s)));
      [now apply valid_units_repetitions|assumption].
Qed.

Lemma editor_units_are_valid_and_played_witness :
  valid_units (items (run session_trace initialApp)) = true /\
  (forall st, In st (steps_of (items (run session_trace initialApp))) ->
              (0 < time st)%Z /\
              In st (flattenSequence (items (run session_trace initialApp)))).
Proof.
  apply (editor_units_are_valid_and_played session_trace).
  vm_compute. reflexivity.
Defined.

(** X12. As long as the tree is only changed through the editor, the
    duration handed to the countdown is the positive duration of the
    flattened step at the current index whenever there is one; when the
    index is outside the flattened list (an empty list included) it is the
    fallback of 10 seconds. *)
Theorem activeDuration_is_current_step_or_fallback :
  forall tr,
    forallb (fun e => negb (is_load e)) tr = true ->
    let s := run tr initialApp in
    (forall st,
        nth_error (flattenedSequence s) (currentStepIndex s) = Some st ->
        activeDuration s = time st /\ (0 < activeDuration s)%Z) /\
    (nth_error (flattenedSequence s) (currentStepIndex s) = None ->
     activeDuration s = 10%Z).
Proof.
  intros tr Htr s.
  destruct (units_invariant_run tr Htr initialApp units_invariant_initial)
    as (_ & _ & Hf). fold s in Hf.
  unfold activeDuration. split.
  - intros st Hst. rewrite Hst. cbn [option_map]. unfold num_or.
    apply nth_error_In in Hst.
    pose proof (proj1 (Forall_forall _ _) Hf st Hst) as Hpos.
    cbv beta in Hpos. destruct (Z.eqb_spec (time st) 0); lia.
  - intros ->. reflexivity.
Qed.

Lemma activeDuration_is_current_step_or_fallback_witness :
  activeDuration (run running_trace initialApp) = 30%Z /\
  (0 < activeDuration (run running_trace initialApp))%Z.
Proof.
  apply (proj1 (activeDuration_is_current_step_or_fallback running_trace
                  ltac:(vm_compute; reflexivity)) (mkStep 30 None "1")).
  vm_compute. reflexivity.
Defined.


(** ** Playing a sequence to its end *)

Lemma run_app tr1 tr2 s : run (tr1 ++ tr2) s = run tr2 (run tr1 s).
Proof. unfold run. apply fold_left_app. Qed.

Lemma completes_to_the_end k :
  forall s,
    currentStepIndex s + k + 1 = length (flattenedSequence s) ->
    run (repeat TimerComplete (S k)) s =
    mkApp (minutes s) (seconds s) false 0 (resetKey s + 1) (items s)
          (flattenedSequence s) (isLoopModalVisible s) (loopRepetitions s)
          (currentParentId s) (effects s ++ repeat PlayBeep k).
Proof.
  induction k as [|k IH]; intros s Hk.
  - cbn [repeat run fold_left step]. unfold exec.
    rewrite handleComplete_finish by lia. cbn [snd].
    rewrite resetTimer_exec. cbn [repeat]. now rewrite app_nil_r.
  - change (repeat TimerComplete (S (S k)))
      with ([TimerComplete] ++ repeat TimerComplete (S k)).
    rewrite run_app. cbn [run fold_left step]. unfold exec at 1.
    rewrite handleComplete_advance by lia. cbn [snd].
    rewrite IH by (cbn; lia). cbn. rewrite <- app_assoc. reflexivity.
Qed.

(** X13. Playing to the end: from any state whose flattened list has
    [L > 0] entries, pressing start and letting the countdown complete [L]
    times ends not Running at index 0, with the reset token incremented
    once and exactly [L] audio cues emitted (one at the start and one at
    each of the [L - 1] transitions); the tree and the flattened list are
    untouched. *)
Theorem start_then_all_steps_complete :
  forall s,
    0 < length (flattenedSequence s) ->
    run (PressStart :: repeat TimerComplete (length (flattenedSequence s))) s =
    mkApp (minutes s) (seconds s) false 0 (resetKey s + 1) (items s)
          (flattenedSequence s) (isLoopModalVisible s) (loopRepetitions s)
          (currentParentId s)
          (effects s ++ repeat PlayBeep (length (flattenedSequence s))).
Proof.
  intros s HL.
  change (PressStart :: ?l) with ([PressStart] ++ l).
  rewrite run_app. cbn [run fold_left step].
  rewrite startSequence_nonempty
    by (destruct (flattenedSequence s); [inversion HL|discriminate]).
  destruct (length (flattenedSequence s)) as [|k] eqn:E; [inversion HL|].
  rewrite completes_to_the_end by (cbn; lia).
  cbn. rewrite <- app_assoc. reflexivity.
Qed.

Lemma start_then_all_steps_complete_witness :
  let s := run [ChangeSeconds "30"; PressAdd "1"; ChangeSeconds "10";
                PressAdd "2"; FlattenEffect] initialApp in
  run (PressStart :: repeat TimerComplete (length (flattenedSequence s))) s =
  mkApp (minutes s) (seconds s) false 0 (resetKey s + 1) (items s)
        (flattenedSequence s) (isLoopModalVisible s) (loopRepetitions s)
        (currentParentId s)
        (effects s ++ repeat PlayBeep (length (flattenedSequence s))).
Proof.
  apply (start_then_all_steps_complete
           (run [ChangeSeconds "30"; PressAdd "1"; ChangeSeconds "10";
                 PressAdd "2"; FlattenEffect] initialApp)).
  vm_compute. lia.
Defined.

(** X14. The key of the countdown widget changes at every step-complete
    and at every reset, so the widget always starts a fresh countdown
    there; pause keeps the key, and so does start when the index is
    already 0. *)
Theorem timerKey_changes_on_complete_and_reset :
  forall s,
    timerKey (exec handleComplete s) <> timerKey s /\
    timerKey (exec resetTimer s) <> timerKey s /\
    timerKey (exec pause s) = timerKey s /\
    (currentStepIndex s = 0 -> timerKey (exec startSequence s) = timerKey s).
Proof.
  intros s. unfold timerKey. repeat split.
  - unfold exec.
    destruct (Z.lt_ge_cases (Z.of_nat (currentStepIndex s))
                (Z.of_nat (length (flattenedSequence s)) - 1)).
    + rewrite handleComplete_advance by assumption. cbn.
      intros E. inversion E. lia.
    + rewrite handleComplete_finish by lia. cbn.
      intros E. inversion E. lia.
  - rewrite resetTimer_exec. cbn. intros E. inversion E. lia.
  - intros H0. unfold startSequence, exec, bind, render.
    destruct (length (flattenedSequence s) =? 0)%nat; cbn; now rewrite ?H0.
Qed.

Lemma timerKey_changes_on_complete_and_reset_witness :
  let s := run [ChangeSeconds "30"; PressAdd "1"; FlattenEffect;
                PressStart; PressPause] initialApp in
  (flattenedSequence s = [mkStep 30 None "1"] /\
   isTimerPlaying s = false /\ currentStepIndex s = 0) /\
  isTimerPlaying (exec startSequence s) = true /\
  timerKey (exec startSequence s) = timerKey s.
Proof.
  cbv zeta. split; [vm_compute; repeat split|].
  split; [vm_compute; reflexivity|].
  apply (proj2 (proj2 (proj2
           (timerKey_changes_on_complete_and_reset
              (run [ChangeSeconds "30"; PressAdd "1"; FlattenEffect;
                    PressStart; PressPause] initialApp))))).
  vm_compute. reflexivity.
Defined.

(** X15. With an empty flattened list, start does nothing at all (no
    state change, no audio cue), a step-complete acts as a reset, and the
    countdown shows the fallback duration. *)
Theorem playback_on_empty_list :
  forall s,
    flattenedSequence s = [] ->
    exec startSequence s = s /\
    exec handleComplete s = exec resetTimer s /\
    activeDuration s = 10%Z.
Proof.
  intros s He. repeat split.
  - unfold startSequence, exec, bind, render. now rewrite He.
  - unfold exec at 1. rewrite handleComplete_finish; [reflexivity|].
    rewrite He. cbn. lia.
  - unfold activeDuration. rewrite He. now destruct (currentStepIndex s).
Qed.

Lemma playback_on_empty_list_witness :
  exec startSequence initialApp = initialApp /\
  exec handleComplete initialApp = exec resetTimer initialApp /\
  activeDuration initialApp = 10%Z.
Proof. apply (playback_on_empty_list initialApp). reflexivity. Defined.

(** ** Displayed times *)

Lemma read_uint d :
  forall acc,
    read_digits 10 (NilEmpty.string_of_uint d) (Some (Z.of_nat acc))
    = Some (Z.of_nat (Nat.of_uint_acc d acc)).
Proof.
  induction d; intros acc; cbn [NilEmpty.string_of_uint read_digits Nat.of_uint_acc];
    [reflexivity| | | | | | | | | |];
    match goal with
    | |- context [digit_value 10 ?c] =>
        let v := eval vm_compute in (digit_value 10 c) in
        change (digit_value 10 c) with v
    end;
    cbv iota beta; rewrite <- IHd; do 2 f_equal;
    rewrite Nat.tail_mul_spec; lia.
Qed.

Lemma all_digits_uint d : all_digits (NilEmpty.string_of_uint d) = true.
Proof. induction d; cbn; auto. Qed.

Lemma all_digits_app (s1 s2 : string) :
  all_digits (s1 ++ s2)%string = all_digits s1 && all_digits s2.
Proof.
  induction s1 as [|c s1 IH]; cbn; [reflexivity|].
  now rewrite IH, andb_assoc.
Qed.

Lemma all_digits_zeros k : all_digits (zeros k) = true.
Proof. induction k; cbn; auto. Qed.

Lemma read_zeros k s :
  read_digits 10 (zeros k ++ s) (Some 0%Z) = read_digits 10 s (Some 0%Z).
Proof. induction k as [|k IH]; [reflexivity|exact IH]. Qed.

Lemma read_from_nothing s :
  s <> "" -> all_digits s = true ->
  read_digits 10 s None = read_digits 10 s (Some 0%Z).
Proof.
  destruct s as [|c rest]; [congruence|]. intros _.
  cbn [all_digits]. rewrite andb_true_iff. intros [Hc _].
  apply is_digit_cases in Hc.
  destruct Hc as [->|[->|[->|[->|[->|[->|[->|[->|[->| ->]]]]]]]]];
    reflexivity.
Qed.

Lemma to_uint_nonnil n : Nat.to_uint n <> Decimal.Nil.
Proof.
  rewrite <- (DecimalNat.Unsigned.of_to n) at 1.
  rewrite DecimalNat.Unsigned.to_of.
  rewrite <- (DecimalNat.Unsigned.of_to n).
  rewrite DecimalNat.Unsigned.to_of. apply DecimalFacts.unorm_nonnil.
Qed.

Lemma string_of_uint_nonempty d :
  d <> Decimal.Nil -> NilEmpty.string_of_uint d <> "".
Proof. destruct d; cbn; congruence. Qed.

(** Reading back a printed non-negative number, padded or not. *)
Lemma parseInt_zeros_toString k n :
  (0 <= n)%Z -> parseInt (zeros k ++ toString n) = Some n.
Proof.
  intros Hn.
  assert (Hs : toString n = NilEmpty.string_of_uint (Nat.to_uint (Z.to_nat n)))
    by (destruct n; [reflexivity|reflexivity|lia]).
  rewrite Hs.
  set (d := Nat.to_uint (Z.to_nat n)).
  assert (Hread : read_digits 10 (NilEmpty.string_of_uint d) (Some 0%Z)
                  = Some n).
  { change (Some 0%Z) with (Some (Z.of_nat 0)).
    rewrite (read_uint d 0). fold (Nat.of_uint d). unfold d.
    rewrite DecimalNat.Unsigned.of_to. f_equal. lia. }
  rewrite parseInt_all_digits
    by (now rewrite all_digits_app, all_digits_zeros, all_digits_uint).
  rewrite read_from_nothing.
  - now rewrite read_zeros.
  - destruct k; cbn; [|discriminate].
    apply string_of_uint_nonempty, to_uint_nonnil.
  - now rewrite all_digits_app, all_digits_zeros, all_digits_uint.
Qed.

Lemma padStart2_seconds m :
  m < 60 ->
  String.length (padStart2 (NilEmpty.string_of_uint (Nat.to_uint m))) = 2.
Proof.
  intros H.
  do 60 (destruct m as [|m]; [reflexivity|]). lia.
Qed.

Lemma padStart2_minutes m :
  m < 100 ->
  String.length (padStart2 (NilEmpty.string_of_uint (Nat.to_uint m))) = 2.
Proof.
  intros H.
  do 100 (destruct m as [|m]; [reflexivity|]). lia.
Qed.

Lemma length_string_app (s1 s2 : string) :
  String.length (s1 ++ s2)%string = String.length s1 + String.length s2.
Proof. induction s1 as [|c s1 IH]; cbn; [reflexivity|now rewrite IH]. Qed.

(** X16. For a non-negative number of seconds, both [formatTime]
    functions show fields that read back as the duration: typing the
    displayed minutes and seconds into the two inputs of the home screen
    gives a total of exactly that many seconds.  The seconds field always
    has two characters, and below 100 minutes the home screen's text has
    the fixed width of [MM:SS]. *)
Theorem formatTime_reads_back :
  forall t,
    (0 <= t)%Z ->
    let mm := padStart2 (toString (minutesOf t)) in
    let ss := padStart2 (toString (secondsOf t)) in
    formatTime t = (mm ++ ":" ++ ss)%string /\
    formatTimeLibrary t
    = (toString (minutesOf t) ++ "m " ++ ss ++ "s")%string /\
    (forall s, minutes s = mm -> seconds s = ss -> totalTime s = t) /\
    (forall s, minutes s = toString (minutesOf t) -> seconds s = ss ->
               totalTime s = t) /\
    String.length ss = 2 /\
    ((t < 6000)%Z -> String.length (formatTime t) = 5).
Proof.
  intros t Ht mm ss.
  assert (Hm : (0 <= minutesOf t)%Z) by (apply Z.div_pos; lia).
  assert (Hs : (0 <= secondsOf t < 60)%Z) by (apply Z.rem_bound_pos; lia).
  assert (Hsplit : (minutesOf t * 60 + secondsOf t = t)%Z).
  { unfold minutesOf, secondsOf. rewrite Z.rem_mod_nonneg by lia.
    pose proof (Z.div_mod t 60). lia. }
  assert (Hmm : parseInt mm = Some (minutesOf t))
    by (apply parseInt_zeros_toString; assumption).
  assert (Hmm' : parseInt (toString (minutesOf t)) = Some (minutesOf t))
    by (apply (parseInt_zeros_toString 0); assumption).
  assert (Hss : parseInt ss = Some (secondsOf t))
    by (apply parseInt_zeros_toString; lia).
  assert (Hval : forall v, (0 <= v)%Z -> num_or (Some v) 0 = v).
  { intros v Hv. unfold num_or. destruct (Z.eqb_spec v 0); lia. }
  assert (Hlen : String.length ss = 2).
  { unfold ss.
    replace (toString (secondsOf t))
      with (NilEmpty.string_of_uint (Nat.to_uint (Z.to_nat (secondsOf t))))
      by (destruct (secondsOf t); [reflexivity|reflexivity|lia]).
    apply padStart2_seconds. lia. }
  split; [reflexivity|]. split; [reflexivity|].
  split; [|split; [|split; [exact Hlen|]]].
  - intros s E1 E2. unfold totalTime. rewrite E1, E2, Hmm, Hss.
    rewrite !Hval by lia. exact Hsplit.
  - intros s E1 E2. unfold totalTime. rewrite E1, E2, Hmm', Hss.
    rewrite !Hval by lia. exact Hsplit.
  - intros Hlt. unfold formatTime. fold mm ss.
    rewrite !length_string_app, Hlen. cbn [String.length].
    assert (Hm100 : (minutesOf t < 100)%Z)
      by (unfold minutesOf; apply Z.div_lt_upper_bound; lia).
    unfold mm.
    replace (toString (minutesOf t))
      with (NilEmpty.string_of_uint (Nat.to_uint (Z.to_nat (minutesOf t))))
      by (destruct (minutesOf t); [reflexivity|reflexivity|lia]).
    rewrite padStart2_minutes by lia. reflexivity.
Qed.

Lemma formatTime_reads_back_witness :
  formatTime 125 = "02:05" /\ formatTimeLibrary 125 = "2m 05s".
Proof.
  destruct (formatTime_reads_back 125 ltac:(lia)) as (H1 & H2 & _).
  split; [rewrite H1|rewrite H2]; reflexivity.
Defined.


(* ===================================================================== *)
(** * Properties of the library and of saving *)
(* ===================================================================== *)

Module LibraryFacts.
Import Persistence Library Saving.

Lemma ofJSON_object props :
  ofJSON (JObject props) = VObject (ofJSON_props props).
Proof.
  cbn [ofJSON]. f_equal. unfold ofJSON_props.
  induction props as [|[k v] rest IH]; [reflexivity|].
  cbn [map fst snd]. now rewrite IH.
Qed.

Lemma stringify_object props :
  stringify (VObject props) = JObject (stringify_props props).
Proof. reflexivity. Qed.

Lemma ofJSON_not_undefined j : ofJSON j <> VUndefined.
Proof. destruct j; discriminate. Qed.

(** Writing a parsed value and parsing it again gives the same value. *)
Lemma stringify_ofJSON j : stringify (ofJSON j) = j.
Proof.
  induction j as [| | | |elements IH|props IH] using json_ind;
    try reflexivity.
  - cbn [ofJSON stringify]. f_equal. rewrite map_map.
    induction IH as [|e rest He _ IHrest]; [reflexivity|].
    cbn [map]. now rewrite He, IHrest.
  - rewrite ofJSON_object, stringify_object. f_equal. unfold ofJSON_props.
    induction IH as [|[k v] rest Hv _ IHrest]; [reflexivity|].
    cbn [map fst snd stringify_props] in *.
    pose proof (ofJSON_not_undefined v) as Hu.
    destruct (ofJSON v) eqn:E; try congruence;
      rewrite IHrest; rewrite <- Hv; reflexivity.
Qed.

Lemma map_stringify_ofJSON l : map stringify (map ofJSON l) = l.
Proof.
  rewrite map_map. induction l as [|j l IH]; [reflexivity|].
  cbn [map]. now rewrite stringify_ofJSON, IH.
Qed.

Lemma nullish_ofJSON j : nullish (ofJSON j) = true -> j = JNull.
Proof. destruct j; cbn; congruence. Qed.

(** An entry of the current shape goes through the migration unchanged. *)
Lemma migrateEntry_currentShape clock entry :
  currentShape entry = true ->
  migrateEntry clock (ofJSON entry) = Normal (ofJSON entry).
Proof.
  unfold currentShape, migrateEntry, getProp.
  destruct (ofJSON entry) as [| | | | | |props]; try discriminate;
    try reflexivity.
  rewrite orb_true_iff, negb_true_iff. intros [H|H]; rewrite ?H; [reflexivity|].
  now destruct (vtruthy (vlookup "steps" props)).
Qed.

Lemma mapi_currentShape clock entries :
  forallb currentShape entries = true ->
  forall i,
    mapi (fun j => migrateEntry (clock j)) i (map ofJSON entries)
    = Normal (map ofJSON entries).
Proof.
  induction entries as [|e rest IH]; cbn [forallb map mapi]; [reflexivity|].
  rewrite andb_true_iff. intros [He Hrest] i.
  now rewrite migrateEntry_currentShape, IH.
Qed.

(** A successful [map] of the migration never yields [null] or
    [undefined] entries. *)
Lemma migrateEntry_not_nullish clock seq m :
  migrateEntry clock seq = Normal m -> nullish m = false.
Proof.
  unfold migrateEntry, getProp.
  destruct seq as [| | | | | |props]; try discriminate;
    try (intros H; inversion H; reflexivity).
  destruct (vtruthy (vlookup "steps" props));
    [|intros H; inversion H; reflexivity].
  destruct (negb (vtruthy (vlookup "items" props)));
    [|intros H; inversion H; reflexivity].
  destruct (vlookup "steps" props); try discriminate.
  destruct (mapi _ 0 elements); [|discriminate].
  intros H; inversion H; reflexivity.
Qed.

Lemma mapi_not_nullish (clock : nat -> nat -> string) seqs :
  forall i migrated,
    mapi (fun j => migrateEntry (clock j)) i seqs = Normal migrated ->
    forallb (fun v => negb (nullish v)) migrated = true.
Proof.
  induction seqs as [|x rest IH]; cbn [mapi]; intros i migrated H.
  - inversion H. reflexivity.
  - destruct (migrateEntry (clock i) x) as [y|] eqn:Ey; [|discriminate].
    destruct (mapi _ (S i) rest) as [ys|] eqn:Eys; [|discriminate].
    inversion H; subst. cbn [forallb].
    rewrite (migrateEntry_not_nullish _ _ _ Ey). cbn. now apply (IH (S i)).
Qed.

(** X17. [loadSavedSequences] always ends with the loading flag off.  It
    either succeeds and shows nothing, or fails and then leaves the list
    of sequences as it was, logging the error and showing one alert.  It
    fails when the read is rejected, when the text is not JSON and when
    the parsed payload is not an array; with nothing stored the list
    becomes empty. *)
Theorem loadSavedSequences_outcomes :
  forall stored clock s,
    let s' := loadSavedSequences stored clock s in
    isLoading s' = false /\
    (shown s' = shown s \/
     (savedSequences s' = savedSequences s /\
      shown s' = shown s ++ loadCatch)) /\
    ((stored = ReadRejected \/ stored = NotJSON \/
      exists j, stored = Parsed j /\ forall l, j <> JArray l) ->
     savedSequences s' = savedSequences s /\
     shown s' = shown s ++ loadCatch) /\
    (stored = NoValue -> savedSequences s' = [] /\ shown s' = shown s).
Proof.
  intros stored clock s s'. subst s'. unfold loadSavedSequences.
  split; [reflexivity|]. split; [|split].
  - destruct stored as [| | |parsed]; cbn; auto.
    destruct (ofJSON parsed); cbn; auto.
    destruct (mapi _ 0 elements); cbn; auto.
  - intros [->|[->|(j & -> & Hj)]]; cbn; auto.
    destruct j; cbn; auto. exfalso. now apply (Hj elements).
  - intros ->. cbn. auto.
Qed.

Lemma loadSavedSequences_outcomes_witness :
  let s' := loadSavedSequences (Parsed (JObject [("a", JNumber 1)]))
                               (fun _ _ => "0")
                               (mkLibrary [VNumber 7] false []) in
  savedSequences s' = [VNumber 7] /\ shown s' = [] ++ loadCatch.
Proof.
  apply (proj1 (proj2 (proj2
           (loadSavedSequences_outcomes
              (Parsed (JObject [("a", JNumber 1)])) (fun _ _ => "0")
              (mkLibrary [VNumber 7] false []))))).
  right. right. eexists. split; [reflexivity|]. discriminate.
Defined.

Lemma loadSavedSequences_keeps_current_entries_aux entries clock s :
  forallb currentShape entries = true ->
  loadSavedSequences (Parsed (JArray entries)) clock s
  = mkLibrary (map ofJSON entries) false (shown s).
Proof.
  intros H. unfold loadSavedSequences. cbn [ofJSON].
  now rewrite (mapi_currentShape clock entries H 0).
Qed.

(** X18. Entries that are already in the current shape (not [null], with
    no truthy [steps] or with a truthy [items]) are loaded exactly as
    stored, in order, with nothing shown. *)
Theorem loadSavedSequences_keeps_current_entries :
  forall entries clock s,
    forallb currentShape entries = true ->
    loadSavedSequences (Parsed (JArray entries)) clock s
    = mkLibrary (map ofJSON entries) false (shown s).
Proof.
  intros entries clock s H.
  now apply loadSavedSequences_keeps_current_entries_aux.
Qed.

Lemma loadSavedSequences_keeps_current_entries_witness :
  let e := JObject [("id", JString "1"); ("name", JString "n");
                    ("items", JArray [])] in
  loadSavedSequences (Parsed (JArray [e])) (fun _ _ => "0") initialLibrary
  = mkLibrary [ofJSON e] false [].
Proof.
  apply (loadSavedSequences_keeps_current_entries
           [JObject [("id", JString "1"); ("name", JString "n");
                     ("items", JArray [])]]).
  reflexivity.
Defined.

Lemma vlookup_ofJSON_props key props :
  vlookup key (ofJSON_props props)
  = match lookup key props with
    | Some j => ofJSON j
    | None => VUndefined
    end.
Proof.
  induction props as [|[k v] rest IH]; [reflexivity|].
  cbn [ofJSON_props map fst snd vlookup lookup].
  destruct (String.eqb k key); [reflexivity|exact IH].
Qed.

Lemma keys_ofJSON_props props :
  map fst (ofJSON_props props) = map fst props.
Proof. unfold ofJSON_props. rewrite map_map. reflexivity. Qed.

Lemma vlookup_absent key ps :
  ~ In key (map fst ps) -> vlookup key ps = VUndefined.
Proof.
  induction ps as [|[k v] rest IH]; [reflexivity|].
  cbn [map fst In vlookup]. intros H.
  destruct (String.eqb_spec k key); [tauto|]. apply IH. tauto.
Qed.

Lemma keys_vassign key v ps :
  map fst (vassign key v ps)
  = if existsb (String.eqb key) (map fst ps) then map fst ps
    else map fst ps ++ [key].
Proof.
  induction ps as [|[k w] rest IH]; [reflexivity|].
  cbn [vassign map fst existsb]. rewrite (String.eqb_sym key k).
  destruct (String.eqb k key); cbn [map fst orb]; [reflexivity|].
  rewrite IH. now destruct (existsb (String.eqb key) (map fst rest)).
Qed.

Lemma NoDup_vassign key v ps :
  NoDup (map fst ps) -> NoDup (map fst (vassign key v ps)).
Proof.
  intros H. rewrite keys_vassign.
  destruct (existsb (String.eqb key) (map fst ps)) eqn:E; [assumption|].
  apply (Permutation_NoDup (Permutation_cons_append _ key)).
  constructor; [|assumption].
  intros Hin. apply string_mem_In in Hin. unfold string_mem in Hin.
  congruence.
Qed.

Lemma vlookup_vassign_same key v ps : vlookup key (vassign key v ps) = v.
Proof.
  induction ps as [|[k w] rest IH]; cbn [vassign vlookup].
  - now rewrite String.eqb_refl.
  - destruct (String.eqb k key) eqn:E; cbn [vlookup]; now rewrite E.
Qed.

Lemma vlookup_vassign_other key k' v ps :
  k' <> key -> vlookup key (vassign k' v ps) = vlookup key ps.
Proof.
  intros Hne. induction ps as [|[k w] rest IH]; cbn [vassign vlookup].
  - destruct (String.eqb_spec k' key); [contradiction|reflexivity].
  - destruct (String.eqb_spec k k') as [->|Hk]; cbn [vlookup].
    + destruct (String.eqb_spec k' key); [contradiction|reflexivity].
    + destruct (String.eqb k key); [reflexivity|exact IH].
Qed.

Lemma lookup_stringify_absent key ps :
  ~ In key (map fst ps) -> lookup key (stringify_props ps) = None.
Proof.
  induction ps as [|[k v] rest IH]; [reflexivity|].
  cbn [map fst In]. intros H.
  assert (Hrest : lookup key (stringify_props rest) = None) by (apply IH; tauto).
  destruct v; cbn [stringify_props lookup]; try exact Hrest;
    (destruct (String.eqb_spec k key); [tauto|exact Hrest]).
Qed.

(** What a later reader finds under a key of an object that went through
    [JSON.stringify]: nothing when the value was [undefined]. *)
Lemma lookup_stringify_props key ps :
  NoDup (map fst ps) ->
  lookup key (stringify_props ps)
  = match vlookup key ps with
    | VUndefined => None
    | w => Some (stringify w)
    end.
Proof.
  induction ps as [|[k v] rest IH]; [reflexivity|].
  cbn [map fst]. intros Hnd. inversion Hnd as [|? ? Hn Hnd']; subst.
  specialize (IH Hnd'). cbn [vlookup].
  destruct (String.eqb_spec k key) as [->|Hne].
  - destruct v; cbn [stringify_props lookup]; rewrite ?String.eqb_refl;
      try reflexivity.
    now apply lookup_stringify_absent.
  - destruct v; cbn [stringify_props lookup]; try exact IH;
      (destruct (String.eqb_spec k key); [contradiction|exact IH]).
Qed.

Lemma migrateStep_not_null now j :
  isNull j = false ->
  migrateStep now (ofJSON j) = Normal (migratedStep now (ofJSON j)).
Proof. destruct j; try discriminate; reflexivity. Qed.

Lemma mapi_migrateStep clock jsteps :
  forallb (fun j => negb (isNull j)) jsteps = true ->
  forall k,
    mapi (fun i => migrateStep (clock i)) k (map ofJSON jsteps)
    = Normal (migratedSteps clock k (map ofJSON jsteps)).
Proof.
  induction jsteps as [|j rest IH]; cbn [forallb map mapi migratedSteps];
    [reflexivity|].
  rewrite andb_true_iff, negb_true_iff. intros [Hj Hrest] k.
  now rewrite migrateStep_not_null, IH.
Qed.

(** X19. A legacy entry of the library (an object with a [steps] array,
    no truthy [items], no [null] step) is migrated by
    [loadSavedSequences]; when it is then handed to [handleLoadSequence]
    and read by [loadSequence] of the home screen, the working tree
    becomes the list of its migrated steps, with no load-failure notice:
    the [steps] shape reaches the home screen through the library. *)
Theorem legacy_entry_loads_through_library :
  forall props jsteps clock writeSt scr,
    NoDup (map fst props) ->
    lookup "steps" props = Some (JArray jsteps) ->
    vtruthy (vlookup "items" (ofJSON_props props)) = false ->
    forallb (fun j => negb (isNull j)) jsteps = true ->
    let mapped := migratedSteps clock 0 (map ofJSON jsteps) in
    let migrated :=
      VObject (vassign "steps" VUndefined
                 (vassign "items" (VArray mapped) (ofJSON_props props))) in
    migrateEntry clock (ofJSON (JObject props)) = Normal migrated /\
    lookup "steps" (stringify_props
                      (vassign "steps" VUndefined
                         (vassign "items" (VArray mapped)
                                  (ofJSON_props props)))) = None /\
    loadSequence
      (readSlot (currentSequence
                   (fst (handleLoadSequence migrated true writeSt
                                            initialLibrary))))
      scr
    = setRawItems (map stringify mapped) scr.
Proof.
  intros props jsteps clock writeSt scr Hnd Hsteps Hitems Hnonnull
         mapped migrated.
  assert (Hkeys : NoDup (map fst (vassign "steps" VUndefined
                    (vassign "items" (VArray mapped) (ofJSON_props props))))).
  { apply NoDup_vassign, NoDup_vassign. now rewrite keys_ofJSON_props. }
  split; [|split].
  - rewrite ofJSON_object. unfold migrateEntry, getProp.
    rewrite vlookup_ofJSON_props, Hsteps. cbn [ofJSON vtruthy].
    rewrite Hitems. cbn [negb].
    rewrite (mapi_migrateStep clock jsteps Hnonnull 0). reflexivity.
  - rewrite lookup_stringify_props by assumption.
    now rewrite vlookup_vassign_same.
  - cbn [handleLoadSequence fst currentSequence readSlot].
    unfold migrated. rewrite stringify_object.
    unfold loadSequence, get_items.
    rewrite lookup_stringify_props by assumption.
    rewrite vlookup_vassign_other by discriminate.
    rewrite vlookup_vassign_same. reflexivity.
Qed.

Lemma legacy_entry_loads_through_library_witness :
  loadSequence
    (readSlot (currentSequence
       (fst (handleLoadSequence
               (VObject
                  (vassign "steps" VUndefined
                     (vassign "items"
                        (VArray (migratedSteps (fun _ => "9") 0
                                   (map ofJSON
                                      [JObject [("time", JNumber 20);
                                                ("id", JString "a")]])))
                        (ofJSON_props
                           [("id", JString "1"); ("name", JString "n");
                            ("steps",
                             JArray [JObject [("time", JNumber 20);
                                              ("id", JString "a")]])]))))
               true (mkStorage None None) initialLibrary))))
    (mkScreen [] [])
  = setRawItems
      [JObject [("type", JString "step"); ("time", JNumber 20);
                ("id", JString "a")]]
      (mkScreen [] []).
Proof.
  apply (proj2 (proj2
          (legacy_entry_loads_through_library
             [("id", JString "1"); ("name", JString "n");
              ("steps", JArray [JObject [("time", JNumber 20);
                                         ("id", JString "a")]])]
             [JObject [("time", JNumber 20); ("id", JString "a")]]
             (fun _ => "9") (mkStorage None None) (mkScreen [] [])
             ltac:(cbn; repeat constructor; cbn; intuition discriminate)
             eq_refl eq_refl eq_refl))).
Defined.



Lemma currentShape_newSequence n1 n2 count s :
  currentShape (newSequenceRecord n1 n2 count s) = true.
Proof. reflexivity. Qed.

Lemma mapi_app_single {A B} (f : nat -> A -> Completion B) xs x :
  forall i,
    mapi f i (xs ++ [x])
    = match mapi f i xs with
      | Throws => Throws
      | Normal ys =>
          match f (i + length xs) x with
          | Throws => Throws
          | Normal y => Normal (ys ++ [y])
          end
      end.
Proof.
  induction xs as [|a rest IH]; intros i; cbn [app mapi length].
  - rewrite Nat.add_0_r. now destruct (f i x).
  - destruct (f i a) as [b|]; [|reflexivity].
    rewrite IH. replace (S i + length rest) with (i + S (length rest)) by lia.
    destruct (mapi f (S i) rest) as [ys|]; [|reflexivity].
    now destruct (f (i + S (length rest)) x).
Qed.

Lemma loadSavedSequences_after_append entries new clock lib :
  currentShape new = true ->
  loadSavedSequences (Parsed (JArray (entries ++ [new]))) clock lib
  = match mapi (fun j => migrateEntry (clock j)) 0 (map ofJSON entries) with
    | Normal migrated =>
        mkLibrary (migrated ++ [ofJSON new]) false (shown lib)
    | Throws =>
        mkLibrary (savedSequences lib) false (shown lib ++ loadCatch)
    end.
Proof.
  intros Hnew. unfold loadSavedSequences. cbn [ofJSON].
  rewrite map_app. cbn [map]. rewrite mapi_app_single.
  destruct (mapi _ 0 (map ofJSON entries)) as [migrated|]; [|reflexivity].
  now rewrite migrateEntry_currentShape.
Qed.

(** X21. Saving to the library and loading it back restores the tree.
    When the stored library is an array (or nothing is stored), a
    successful [saveSequenceToLibrary] appends exactly one entry to it and
    keeps the other entries, closes the modal and clears the name and the
    description.  A following [loadSavedSequences] lists what it lists for
    the old entries (as stored when they have the current shape, migrated
    when they are legacy entries) followed by the new entry, and it fails,
    leaving the list as it was, exactly when an old entry makes the
    migration throw (a [null] entry, for one).  Handing the new entry to
    [handleLoadSequence] makes [loadSequence] of the home screen set the
    tree to the items that were saved, and the working sequence that
    [saveCurrentSequence] wrote on the way loads to the same items. *)
Theorem save_then_load_restores_items :
  forall entries st s nows writeCurrentOk clock lib scr,
    (library st = Some (JArray entries) \/
     (library st = None /\ entries = [])) ->
    let '(n1, n2, n3, n4) := nows in
    let new := newSequenceRecord n1 n2 (length entries) s in
    let st1 := fst (saveSequenceToLibrary (readSlot (library st)) nows true
                                          writeCurrentOk st s) in
    let s1 := snd (saveSequenceToLibrary (readSlot (library st)) nows true
                                         writeCurrentOk st s) in
    library st1 = Some (JArray (entries ++ [new])) /\
    (treeItems s1 = treeItems s /\ isSaveModalVisible s1 = false /\
     sequenceName s1 = "" /\ sequenceDescription s1 = "") /\
    (forall migrated,
        mapi (fun j => migrateEntry (clock j)) 0 (map ofJSON entries)
        = Normal migrated ->
        loadSavedSequences (readSlot (library st1)) clock lib
        = mkLibrary (migrated ++ [ofJSON new]) false (shown lib)) /\
    (mapi (fun j => migrateEntry (clock j)) 0 (map ofJSON entries) = Throws ->
     loadSavedSequences (readSlot (library st1)) clock lib
     = mkLibrary (savedSequences lib) false (shown lib ++ loadCatch)) /\
    (forallb currentShape entries = true ->
     loadSavedSequences (readSlot (library st1)) clock lib
     = mkLibrary (map ofJSON entries ++ [ofJSON new]) false (shown lib)) /\
    loadSequence
      (readSlot (currentSequence
                   (fst (handleLoadSequence (ofJSON new) true st1 lib))))
      scr
    = setRawItems (treeItems s) scr /\
    (writeCurrentOk = true ->
     loadSequence (readSlot (currentSequence st1)) scr
     = setRawItems (treeItems s) scr).
Proof.
  intros entries st s [[[n1 n2] n3] n4] wc clock lib scr Hlib.
  cbv zeta.
  assert (Hread : saveSequenceToLibrary (readSlot (library st))
                    (n1, n2, n3, n4) true wc st s
                  = saveSequenceToLibrary (Parsed (JArray entries))
                      (n1, n2, n3, n4) true wc st s).
  { destruct Hlib as [->|[-> ->]]; reflexivity. }
  rewrite Hread. clear Hread.
  set (new := newSequenceRecord n1 n2 (length entries) s).
  assert (Hlibrary :
            library (fst (saveSequenceToLibrary (Parsed (JArray entries))
                            (n1, n2, n3, n4) true wc st s))
            = Some (JArray (entries ++ [new]))).
  { unfold saveSequenceToLibrary, saveCurrentSequence.
    destruct wc; reflexivity. }
  assert (Hload :
            loadSavedSequences
              (readSlot (library (fst (saveSequenceToLibrary
                                         (Parsed (JArray entries))
                                         (n1, n2, n3, n4) true wc st s))))
              clock lib
            = match mapi (fun j => migrateEntry (clock j)) 0
                         (map ofJSON entries) with
              | Normal migrated =>
                  mkLibrary (migrated ++ [ofJSON new]) false (shown lib)
              | Throws =>
                  mkLibrary (savedSequences lib) false
                            (shown lib ++ loadCatch)
              end).
  { rewrite Hlibrary. cbn [readSlot].
    apply loadSavedSequences_after_append. reflexivity. }
  split; [exact Hlibrary|].
  split; [unfold saveSequenceToLibrary, saveCurrentSequence;
          destruct wc; repeat split|].
  split; [intros migrated Hm; now rewrite Hload, Hm|].
  split; [intros Hm; now rewrite Hload, Hm|].
  split; [intros Hshape;
          now rewrite Hload, (mapi_currentShape clock entries Hshape 0)|].
  split.
  - cbn [handleLoadSequence fst currentSequence readSlot].
    rewrite stringify_ofJSON. reflexivity.
  - intros ->. unfold saveSequenceToLibrary, saveCurrentSequence.
    reflexivity.
Qed.

Lemma save_then_load_restores_items_witness :
  let its := [JObject [("type", JString "step"); ("time", JNumber 20);
                       ("id", JString "a")]] in
  let s := mkSave its "Warm up" "" true [] in
  let st := mkStorage None (Some (JArray [JNull])) in
  let st1 := fst (saveSequenceToLibrary (readSlot (library st))
                                        (1, 2, 3, 4)%Z true true st s) in
  loadSavedSequences (readSlot (library st1)) (fun _ _ => "0") initialLibrary
  = mkLibrary [] false loadCatch /\
  loadSequence
    (readSlot (currentSequence
       (fst (handleLoadSequence
               (ofJSON (newSequenceRecord 1 2 1 s)) true st1
               initialLibrary))))
    (mkScreen [] [])
  = setRawItems its (mkScreen [] []).
Proof.
  cbv zeta.
  pose proof (save_then_load_restores_items
           [JNull] (mkStorage None (Some (JArray [JNull])))
           (mkSave [JObject [("type", JString "step"); ("time", JNumber 20);
                             ("id", JString "a")]] "Warm up" "" true [])
           (1, 2, 3, 4)%Z true (fun _ _ => "0") initialLibrary
           (mkScreen [] [])
           ltac:(left; reflexivity)) as H.
  lazy beta iota zeta in H.
  destruct H as (_ & _ & _ & Hthrows & _ & Hload & _).
  split; [apply Hthrows; reflexivity|exact Hload].
Defined.

Lemma filterC_idDiffers sid l :
  forallb (fun v => negb (nullish v)) l = true ->
  filterC (idDiffers sid) l
  = Normal (filter (fun v => negb (hasId sid v)) l).
Proof.
  induction l as [|v rest IH]; cbn [forallb filterC filter]; [reflexivity|].
  rewrite andb_true_iff, negb_true_iff. intros [Hv Hrest].
  rewrite (IH Hrest).
  destruct v as [| | | | | |props]; try discriminate; try reflexivity.
  unfold idDiffers, getProp, hasId.
  destruct (vlookup "id" props); try reflexivity.
Qed.

Lemma filter_keeps_forallb {A} (f g : A -> bool) l :
  forallb f l = true -> forallb f (filter g l) = true.
Proof.
  induction l as [|x l IH]; cbn; [reflexivity|].
  rewrite andb_true_iff. intros [Hx Hl].
  destruct (g x); cbn; rewrite ?Hx; auto.
Qed.

(** X22. The list that the library screen holds never has a [null] or
    [undefined] entry, whatever is stored; therefore confirming a deletion
    never fails on reading an entry's [id]: it keeps, in order, exactly
    the entries whose [id] is not the given string, writes that list to
    storage, and leaves the working sequence alone; when the write is
    rejected the list on screen is updated all the same and the storage
    keeps its content.  Deleting the same id again changes nothing
    more. *)
Theorem confirmDelete_filters_by_id :
  forall stored clock s0 sid st,
    forallb (fun v => negb (nullish v)) (savedSequences s0) = true ->
    let s := loadSavedSequences stored clock s0 in
    let kept := filter (fun v => negb (hasId sid v)) (savedSequences s) in
    forallb (fun v => negb (nullish v)) (savedSequences s) = true /\
    confirmDelete sid true st s
    = Normal (mkStorage (currentSequence st)
                        (Some (JArray (map stringify kept))),
              setSavedSequences kept s, true) /\
    confirmDelete sid false st s
    = Normal (st, setSavedSequences kept s, false) /\
    forallb (fun v => negb (hasId sid v)) kept = true /\
    (forall st', confirmDelete sid true st' (setSavedSequences kept s)
                 = Normal (mkStorage (currentSequence st')
                                     (Some (JArray (map stringify kept))),
                           setSavedSequences kept s, true)).
Proof.
  intros stored clock s0 sid st H0 s kept.
  assert (Hs : forallb (fun v => negb (nullish v)) (savedSequences s) = true).
  { subst s. unfold loadSavedSequences.
    destruct stored as [| | |parsed]; cbn; auto.
    destruct (ofJSON parsed); cbn; auto.
    destruct (mapi _ 0 elements) as [migrated|] eqn:E; cbn; auto.
    now apply (mapi_not_nullish clock elements 0). }
  assert (Hkept : forallb (fun v => negb (hasId sid v)) kept = true).
  { subst kept. apply forallb_forall. intros v Hv.
    now apply filter_In in Hv. }
  split; [exact Hs|].
  split; [unfold confirmDelete; now rewrite filterC_idDiffers|].
  split; [unfold confirmDelete; now rewrite filterC_idDiffers|].
  split; [exact Hkept|].
  intros st'. unfold confirmDelete. cbn [savedSequences setSavedSequences].
  rewrite filterC_idDiffers
    by (subst kept; now apply filter_keeps_forallb).
  assert (Hid : filter (fun v => negb (hasId sid v)) kept = kept).
  { apply forallb_filter_id. exact Hkept. }
  rewrite Hid. reflexivity.
Qed.

Lemma confirmDelete_filters_by_id_witness :
  let e1 := JObject [("id", JString "1"); ("items", JArray [])] in
  let e2 := JObject [("id", JString "2"); ("items", JArray [])] in
  let s := loadSavedSequences (Parsed (JArray [e1; e2])) (fun _ _ => "0")
                              initialLibrary in
  confirmDelete "1" true (mkStorage None None) s
  = Normal (mkStorage None (Some (JArray [e2])),
            setSavedSequences [ofJSON e2] s, true).
Proof.
  cbv zeta.
  destruct (confirmDelete_filters_by_id
              (Parsed (JArray [JObject [("id", JString "1");
                                        ("items", JArray [])];
                               JObject [("id", JString "2");
                                        ("items", JArray [])]]))
              (fun _ _ => "0") initialLibrary "1" (mkStorage None None)
              eq_refl) as (_ & H & _).
  rewrite H. reflexivity.
Defined.

End LibraryFacts.

(* ===================================================================== *)
(** * Membership and removal, summed up *)
(* ===================================================================== *)

(** X23. [parentExists(items, id)] answers whether some unit of the tree,
    at any depth and of either kind, carries the id: it is true for the id
    of a step as well as for the id of a loop, and false exactly when no
    unit has the id. *)
Theorem parentExists_finds_any_unit :
  forall t p,
    (parentExists t p = true <-> In p (ids t)) /\
    (In p (loop_ids t) -> parentExists t p = true) /\
    (In p (map id (steps_of t)) -> parentExists t p = true).
Proof.
  intros t p. split; [apply parentExists_In|]. split.
  - intros H. apply parentExists_In. now apply loop_ids_incl.
  - intros H. apply parentExists_In. revert H.
    induction t as [|s rest IH|l r cs lb rest IHcs IHrest] using tree_ind.
    + auto.
    + rewrite steps_of_step, ids_step. cbn [map In]. tauto.
    + rewrite steps_of_loop, ids_loop, map_app, in_app_iff. cbn [In].
      rewrite in_app_iff. tauto.
Qed.

Lemma parentExists_finds_any_unit_witness :
  parentExists [ILoop "1" 2 [IStep (mkStep 10 None "2")] None] "2" = true.
Proof.
  apply (proj2 (proj2 (parentExists_finds_any_unit
                         [ILoop "1" 2 [IStep (mkStep 10 None "2")] None]
                         "2"))).
  simpl. now left.
Defined.

(** X24. In a tree with unique ids, [removeItem(rid)] discards the unit
    [rid] with its whole subtree and nothing else: an id is in the tree
    afterwards exactly when it was in the tree before, is not [rid], and
    did not lie below [rid]. *)
Theorem removeItem_discards_exactly_the_subtree :
  forall s rid x,
    NoDup (ids (items s)) ->
    (In x (ids (items (exec (removeItem rid) s))) <->
     In x (ids (items s)) /\ x <> rid /\ ~ In x (ids_under rid (items s))).
Proof.
  intros s rid x Hnd. rewrite removeItem_items. split.
  - intros H. split; [now apply ids_removeFromItems_incl in H|]. split.
    + intros ->. now apply ids_removeFromItems_removed in H.
    + intros Hu. now apply (ids_removeFromItems_under rid _ x Hnd Hu).
  - intros (Hin & Hne & Hu). now apply ids_removeFromItems_kept.
Qed.

Lemma removeItem_discards_exactly_the_subtree_witness :
  In "3"
     (ids (items (exec (removeItem "1")
                       (mkApp "" "" false 0 0
                              [ILoop "1" 2 [IStep (mkStep 10 None "2")] None;
                               IStep (mkStep 5 None "3")]
                              [] false "1" None [])))).
Proof.
  apply (proj2 (removeItem_discards_exactly_the_subtree
                  (mkApp "" "" false 0 0
                         [ILoop "1" 2 [IStep (mkStep 10 None "2")] None;
                          IStep (mkStep 5 None "3")]
                         [] false "1" None []) "1" "3"
                  ltac:(simpl; repeat constructor; simpl;
                        intuition discriminate))).
  simpl. split; [tauto|]. split; [discriminate|].
  intros [H|[]]. discriminate H.
Defined.
